(** * qpr: the typed port-graph builder [QFn] of [qpr.py]

    A shallow embedding of the class [QFn] (src/qpr.py): a circuit is built as
    a [networkx.MultiDiGraph] whose nodes carry an attribute dictionary
    (["fnid"], ["label"]) and whose edges carry the two port names and the
    data type resolved when the edge was inserted.

    Python statements are sequenced in a state-and-exception monad over the
    object [self]: a method either returns or raises, and in both cases hands
    back the object as the statements executed so far have left it. *)

From stdpp Require Import base option list gmap strings fin_maps.

Local Open Scope string_scope.
Local Open Scope list_scope.

(** ** Data model *)

(** [Sig]: the dataclass with the two port-name-to-type dictionaries. *)
Record Sig := mkSig {
  in_types : gmap string string;
  out_types : gmap string string
}.

(** The module-level table [fn_types]. *)
Definition H_gate_sig : Sig := mkSig {["q" := "Qubit"]} {["q" := "Qubit"]}.
Definition CX_gate_sig : Sig :=
  mkSig (<["tgt" := "Qubit"]> {["ctl" := "Qubit"]})
        (<["tgt" := "Qubit"]> {["ctl" := "Qubit"]}).
Definition fn_types : gmap string Sig :=
  <["CX_gate" := CX_gate_sig]> {["H_gate" := H_gate_sig]}.

(** The two exception classes the methods raise.  [KeyError] carries the key
    that a dictionary subscript did not find; [ValueError] its message. *)
Inductive exn :=
  | ValueError (msg : string)
  | KeyError (key : string).

(** An edge of the multigraph: endpoints, the integer key networkx gives it,
    and the attribute dictionary [src_port], [tgt_port], [datatype]. *)
Record Edge := mkEdge {
  e_src : string;
  e_tgt : string;
  e_key : nat;
  src_port : string;
  tgt_port : string;
  datatype : string
}.

(** [nx.MultiDiGraph]: the node table (name to attribute dictionary) and the
    edges in insertion order. *)
Record MultiDiGraph := mkGraph {
  nodes : gmap string (gmap string string);
  edges : list Edge
}.

(** The object [self] of class [QFn]. *)
Record QFn := mkQFn {
  name : string;
  sig : Sig;
  G : MultiDiGraph
}.

(** ** The monad of method bodies *)

Inductive outcome (A : Type) :=
  | Return (a : A)
  | Raise (e : exn).
Arguments Return {A} a.
Arguments Raise {A} e.

Definition M (A : Type) : Type := QFn -> outcome A * QFn.

#[global] Instance M_ret : MRet M := fun A a self => (Return a, self).
#[global] Instance M_bind : MBind M := fun A B f m self =>
  match m self with
  | (Return a, self') => f a self'
  | (Raise e, self') => (Raise e, self')
  end.

Definition raise {A} (e : exn) : M A := fun self => (Raise e, self).
Definition get_G : M MultiDiGraph := fun self => (Return (G self), self).
Definition get_sig : M Sig := fun self => (Return (sig self), self).
Definition set_G (g : MultiDiGraph) : M unit := fun self =>
  (Return tt, mkQFn (name self) (sig self) g).

(** [d[k]] on a dictionary: the value, or [KeyError(k)]. *)
Definition getitem {V} (d : gmap string V) (k : string) : M V :=
  match d !! k with
  | Some v => mret v
  | None => raise (KeyError k)
  end.

(** ** The networkx operations the class uses *)

(** [G.add_node(n, **attr)]: a new node gets [attr]; for a node already
    present the attributes given overwrite the stored ones (dict.update). *)
Definition nx_add_node (n : string) (attr : gmap string string)
    (g : MultiDiGraph) : MultiDiGraph :=
  match nodes g !! n with
  | None => mkGraph (<[n := attr]> (nodes g)) (edges g)
  | Some old => mkGraph (<[n := attr ∪ old]> (nodes g)) (edges g)
  end.

(** [new_edge_key(u, v)]: without removals, the number of edges already
    stored from [u] to [v]. *)
Definition new_edge_key (u v : string) (g : MultiDiGraph) : nat :=
  length (filter (fun e => e_src e = u /\ e_tgt e = v) (edges g)).

(** The endpoint step of [G.add_edge]: an endpoint that is not a node yet is
    created with an empty attribute dictionary. *)
Definition nx_touch_node (n : string)
    (ns : gmap string (gmap string string)) : gmap string (gmap string string) :=
  match ns !! n with
  | None => <[n := ∅]> ns
  | Some _ => ns
  end.

(** [G.add_edge(u, v, src_port=.., tgt_port=.., datatype=..)]. *)
Definition nx_add_edge (u v sp tp dt : string) (g : MultiDiGraph) : MultiDiGraph :=
  mkGraph (nx_touch_node v (nx_touch_node u (nodes g)))
          (edges g ++ [mkEdge u v (new_edge_key u v g) sp tp dt]).

(** ** Class [QFn] *)

(** [QFn.__init__(name, sig)]. *)
Definition QFn_init (nm : string) (sg : Sig) : QFn :=
  mkQFn nm sg
    (nx_add_node "fin" {["label" := ""]}
      (nx_add_node "init" {["label" := ""]} (mkGraph ∅ []))).

Definition type_mismatch (s t : string) : string :=
  "Type mismatch: " +:+ s +:+ " != " +:+ t.

Section Builder.

(** The table the methods read as the global [fn_types]. *)
Variable registry : gmap string Sig.

(** The keyword arguments [fnid=fnid, label=label] as a dictionary. *)
Definition node_attr (fnid label : string) : gmap string string :=
  <["label" := label]> {["fnid" := fnid]}.

(** [QFn.add_node(name, fnid, label)]. *)
Definition add_node (n fnid label : string) : M unit :=
  g ← get_G;
  set_G (nx_add_node n (node_attr fnid label) g).

(** [QFn.add_edge(src, src_port, tgt, tgt_port)]. *)
Definition add_edge (src sp tgt tp : string) : M unit :=
  if decide (src = "init") then raise (ValueError "Please use `add_init_edge`")
  else if decide (tgt = "fin") then raise (ValueError "Please use `add_final_edge`")
  else
    g ← get_G;
    src_attr ← getitem (nodes g) src;
    src_fnid ← getitem src_attr "fnid";
    tgt_attr ← getitem (nodes g) tgt;
    tgt_fnid ← getitem tgt_attr "fnid";
    src_sig ← getitem registry src_fnid;
    src_datatype ← getitem (out_types src_sig) sp;
    tgt_sig ← getitem registry tgt_fnid;
    tgt_datatype ← getitem (in_types tgt_sig) tp;
    if decide (src_datatype ≠ tgt_datatype)
    then raise (ValueError (type_mismatch src_datatype tgt_datatype))
    else set_G (nx_add_edge src tgt sp tp src_datatype g).

(** [QFn.add_init_edge(src_port, tgt, tgt_port)]. *)
Definition add_init_edge (sp tgt tp : string) : M unit :=
  sg ← get_sig;
  src_datatype ← getitem (in_types sg) sp;
  g ← get_G;
  tgt_attr ← getitem (nodes g) tgt;
  tgt_fnid ← getitem tgt_attr "fnid";
  tgt_sig ← getitem registry tgt_fnid;
  tgt_datatype ← getitem (in_types tgt_sig) tp;
  if decide (src_datatype ≠ tgt_datatype)
  then raise (ValueError (type_mismatch src_datatype tgt_datatype))
  else set_G (nx_add_edge "init" tgt sp tp src_datatype g).

(** [QFn.add_final_edge(src, src_port, tgt_port)]. *)
Definition add_final_edge (src sp tp : string) : M unit :=
  sg ← get_sig;
  tgt_datatype ← getitem (out_types sg) tp;
  g ← get_G;
  src_attr ← getitem (nodes g) src;
  src_fnid ← getitem src_attr "fnid";
  src_sig ← getitem registry src_fnid;
  src_datatype ← getitem (out_types src_sig) sp;
  if decide (src_datatype ≠ tgt_datatype)
  then raise (ValueError (type_mismatch src_datatype tgt_datatype))
  else set_G (nx_add_edge src "fin" sp tp src_datatype g).

End Builder.

(** [QFn.save_image()].  The [Digraph] the method fills is a local of its
    own, handed to graphviz and dropped, and the method returns [None]; the
    statements it emits, and their order, exist only inside graphviz.  What
    the two loops do to the program is what they read: the loop over the
    nodes subscripts each attribute dictionary with ["label"], the loop over
    the edges reads the endpoints, which cannot fail.  Whichever node
    without a label the first loop meets first, the exception is the same
    [KeyError], so the order of the iteration does not show. *)
Definition save_image : M unit :=
  g ← get_G;
  _ ← mapM (M := M) (fun '(n, attr) => getitem (V := string) attr "label")
         (map_to_list (nodes g));
  mret tt.

(** ** Call sequences *)

(** One call of a caller's script on a [QFn] object. *)
Inductive call :=
  | AddNode (n fnid label : string)
  | AddEdge (src sp tgt tp : string)
  | AddInitEdge (sp tgt tp : string)
  | AddFinalEdge (src sp tp : string)
  | SaveImage.

Definition is_edge_call (c : call) : bool :=
  match c with
  | AddEdge _ _ _ _ | AddInitEdge _ _ _ | AddFinalEdge _ _ _ => true
  | _ => false
  end.

Definition run_call (registry : gmap string Sig) (c : call) : M unit :=
  match c with
  | AddNode n fnid label => add_node n fnid label
  | AddEdge src sp tgt tp => add_edge registry src sp tgt tp
  | AddInitEdge sp tgt tp => add_init_edge registry sp tgt tp
  | AddFinalEdge src sp tp => add_final_edge registry src sp tp
  | SaveImage => save_image
  end.

Definition succeeds {A} (r : outcome A) : bool :=
  match r with Return _ => true | Raise _ => false end.

(** A script run by a caller that catches every exception and goes on: the
    object after the last call, and the outcome of each call. *)
Fixpoint run_calls (registry : gmap string Sig) (cs : list call) (self : QFn)
    : list (outcome unit) * QFn :=
  match cs with
  | [] => ([], self)
  | c :: cs' =>
      let '(r, self') := run_call registry c self in
      let '(rs, self'') := run_calls registry cs' self' in
      (r :: rs, self'')
  end.

(** How many calls of the script were edge insertions that returned. *)
Fixpoint successful_edge_insertions (cs : list call) (rs : list (outcome unit)) : nat :=
  match cs, rs with
  | c :: cs', r :: rs' =>
      (if is_edge_call c && succeeds r then 1 else 0)
      + successful_edge_insertions cs' rs'
  | _, _ => 0
  end.

(** The states a caller can reach from a fresh object. *)
Inductive reachable (registry : gmap string Sig) : QFn -> Prop :=
  | reach_init nm sg : reachable registry (QFn_init nm sg)
  | reach_call c self r self' :
      reachable registry self ->
      run_call registry c self = (r, self') ->
      reachable registry self'.

(** The states reached when every [add_node] names a node not yet present. *)
Inductive reachable_fresh (registry : gmap string Sig) : QFn -> Prop :=
  | fresh_init nm sg : reachable_fresh registry (QFn_init nm sg)
  | fresh_call c self r self' :
      reachable_fresh registry self ->
      (forall n fnid label, c = AddNode n fnid label -> nodes (G self) !! n = None) ->
      run_call registry c self = (r, self') ->
      reachable_fresh registry self'.

Definition node_count (self : QFn) : nat := size (nodes (G self)).
Definition edge_count (self : QFn) : nat := length (edges (G self)).

(** The function [test] of the module, up to the rendering. *)
Definition bell_sig : Sig :=
  mkSig (<["q1" := "Qubit"]> {["q0" := "Qubit"]})
        (<["q1" := "Qubit"]> {["q0" := "Qubit"]}).

Definition test_calls : list call :=
  [ AddNode "H" "H_gate" "H";
    AddNode "CX" "CX_gate" "CX";
    AddInitEdge "q0" "H" "q";
    AddEdge "H" "q" "CX" "ctl";
    AddInitEdge "q1" "CX" "tgt";
    AddFinalEdge "CX" "ctl" "q0";
    AddFinalEdge "CX" "tgt" "q1" ].

Definition test : list (outcome unit) * QFn :=
  run_calls fn_types test_calls (QFn_init "bell" bell_sig).

(** The object of [test] once its two nodes are added. *)
Definition bell_nodes : QFn :=
  (run_calls fn_types (take 2 test_calls) (QFn_init "bell" bell_sig)).2.

(** A script that wires H to CX and then adds a node named H again, this
    time as a CX gate. *)
Definition retag_calls : list call :=
  [ AddNode "H" "H_gate" "H";
    AddNode "CX" "CX_gate" "CX";
    AddEdge "H" "q" "CX" "ctl";
    AddNode "H" "CX_gate" "H" ].

Definition retagged : QFn :=
  (run_calls fn_types retag_calls (QFn_init "bell" bell_sig)).2.

(** ** Properties the specification talks about *)

(** The error the specification calls MisusedBoundaryNode: one of the two
    [ValueError]s that send the caller to a boundary entry point. *)
Definition MisusedBoundaryNode (e : exn) : Prop :=
  e = ValueError "Please use `add_init_edge`" \/
  e = ValueError "Please use `add_final_edge`".

(** The signature a node name stands for: tag of the node, then the table. *)
Definition node_sig (registry : gmap string Sig) (self : QFn) (n : string)
    : option Sig :=
  attr ← nodes (G self) !! n; fnid ← attr !! "fnid"; registry !! fnid.

(** Declared type of output port [p] at source [n]: the circuit's own input
    port when [n] is the start node, the operation's output port otherwise. *)
Definition declared_out (registry : gmap string Sig) (self : QFn)
    (n p : string) : option string :=
  if decide (n = "init") then in_types (sig self) !! p
  else s ← node_sig registry self n; out_types s !! p.

(** Declared type of input port [p] at target [n]. *)
Definition declared_in (registry : gmap string Sig) (self : QFn)
    (n p : string) : option string :=
  if decide (n = "fin") then out_types (sig self) !! p
  else s ← node_sig registry self n; in_types s !! p.

Definition edge_typed (registry : gmap string Sig) (self : QFn) (e : Edge) : Prop :=
  declared_out registry self (e_src e) (src_port e) = Some (datatype e) /\
  declared_in registry self (e_tgt e) (tgt_port e) = Some (datatype e).

Definition endpoints_present (self : QFn) (e : Edge) : Prop :=
  is_Some (nodes (G self) !! e_src e) /\ is_Some (nodes (G self) !! e_tgt e).

Definition type_safe (registry : gmap string Sig) (self : QFn) : Prop :=
  Forall (edge_typed registry self) (edges (G self)).

(** Whether a script only adds nodes under names not yet in the graph. *)
Fixpoint fresh_script (registry : gmap string Sig) (cs : list call) (self : QFn) : bool :=
  match cs with
  | [] => true
  | c :: cs' =>
      match c with
      | AddNode n _ _ => bool_decide (nodes (G self) !! n = None)
      | _ => true
      end && fresh_script registry cs' (run_call registry c self).2
  end.

(** ** Further notions, for the rest of the module *)

(** The module-level set [edge_types]. *)
Definition edge_types : gset string := {["Bit"; "u32"; "Qubit"]}.

(** A data type some operation of the table declares on one of its ports. *)
Definition registry_type (registry : gmap string Sig) (dt : string) : Prop :=
  exists fnid s p,
    registry !! fnid = Some s /\
    (in_types s !! p = Some dt \/ out_types s !! p = Some dt).

(** An edge that treats the boundary as a boundary: it does not leave the
    end node, does not enter the start node, and does not run from the start
    node straight to the end node. *)
Definition boundary_shape (e : Edge) : Prop :=
  e_src e <> "fin" /\ e_tgt e <> "init" /\
  (e_src e = "init" -> e_tgt e <> "fin").

(** The attribute dictionaries the class leaves on a node: a label always,
    an operation identifier on every node but the two made by [__init__],
    and no other key. *)
Definition well_attributed (n : string) (attr : gmap string string) : Prop :=
  is_Some (attr !! "label") /\
  (n <> "init" -> n <> "fin" -> is_Some (attr !! "fnid")) /\
  (forall k, is_Some (attr !! k) -> k = "fnid" \/ k = "label").

(** The node names an edge call subscripts [G.nodes] with. *)
Definition call_nodes (c : call) : list string :=
  match c with
  | AddEdge src _ tgt _ => [src; tgt]
  | AddInitEdge _ tgt _ => [tgt]
  | AddFinalEdge src _ _ => [src]
  | _ => []
  end.

(** The parallel edge networkx stores next to [e]: same endpoints and
    attributes, next key. *)
Definition next_parallel (e : Edge) : Edge :=
  mkEdge (e_src e) (e_tgt e) (S (e_key e)) (src_port e) (tgt_port e) (datatype e).

(** What the three edge methods have established about the edge [e] they
    are about to store in [self]: both endpoints are nodes, the key is the
    next one for this pair, and the type is the one declared at both ports,
    by the operations of the two endpoints ([add_edge]), by the circuit and
    the target operation ([add_init_edge]), or by the source operation and
    the circuit ([add_final_edge]). *)
Definition edge_step (registry : gmap string Sig) (self : QFn) (e : Edge) : Prop :=
  is_Some (nodes (G self) !! e_src e) /\
  is_Some (nodes (G self) !! e_tgt e) /\
  e_key e = new_edge_key (e_src e) (e_tgt e) (G self) /\
  ((e_src e <> "init" /\ e_tgt e <> "fin" /\
    exists ssig tsig,
      node_sig registry self (e_src e) = Some ssig /\
      node_sig registry self (e_tgt e) = Some tsig /\
      out_types ssig !! src_port e = Some (datatype e) /\
      in_types tsig !! tgt_port e = Some (datatype e)) \/
   (e_src e = "init" /\
    exists tsig,
      in_types (sig self) !! src_port e = Some (datatype e) /\
      node_sig registry self (e_tgt e) = Some tsig /\
      in_types tsig !! tgt_port e = Some (datatype e)) \/
   (e_tgt e = "fin" /\
    exists ssig,
      out_types (sig self) !! tgt_port e = Some (datatype e) /\
      node_sig registry self (e_src e) = Some ssig /\
      out_types ssig !! src_port e = Some (datatype e))).

(** The edge an edge call stores when it returns. *)
Definition call_edge (c : call) (key : nat) (dt : string) : Edge :=
  match c with
  | AddEdge src sp tgt tp => mkEdge src tgt key sp tp dt
  | AddInitEdge sp tgt tp => mkEdge "init" tgt key sp tp dt
  | AddFinalEdge src sp tp => mkEdge src "fin" key sp tp dt
  | _ => mkEdge "" "" key "" "" dt
  end.

(** ** Stepping through method bodies *)

Ltac unfold_M :=
  unfold run_call, add_node, add_edge, add_init_edge, add_final_edge,
    getitem, raise, get_G, get_sig, set_G, mbind, M_bind, mret, M_ret in *.

(** Closes a goal that names the exception a call has just raised. *)
Ltac raised :=
  eexists; split; [reflexivity|];
  split; intros; first [done | by left | by right].

Ltac step_M :=
  repeat match goal with
         | |- context [decide ?P] => destruct (decide P)
         | H : context [decide ?P] |- _ => destruct (decide P)
         | |- context [match ?x !! ?k with _ => _ end] =>
             let E := fresh "E" in destruct (x !! k) eqn:E
         | H : context [match ?x !! ?k with _ => _ end] |- _ =>
             let E := fresh "E" in destruct (x !! k) eqn:E
         | H : ~ (_ <> _) |- _ => apply dec_stable in H
         end;
  simplify_eq/=.

Section Facts.

Variable registry : gmap string Sig.

Lemma nx_touch_node_present n ns :
  is_Some (ns !! n) -> nx_touch_node n ns = ns.
Proof. intros [a Ha]. unfold nx_touch_node. by rewrite Ha. Qed.

Lemma nx_touch_node_size n ns : size ns <= size (nx_touch_node n ns).
Proof.
  unfold nx_touch_node. destruct (ns !! n) eqn:E; [done|].
  rewrite map_size_insert_None; [lia|done].
Qed.

Lemma nx_add_node_size n attr g :
  size (nodes g) <= size (nodes (nx_add_node n attr g)).
Proof.
  unfold nx_add_node. destruct (nodes g !! n) eqn:E; simpl.
  - rewrite map_size_insert_Some; [lia|eauto].
  - rewrite map_size_insert_None; [lia|done].
Qed.

(** What a returning [add_edge] has checked and done. *)
Lemma add_edge_Return src sp tgt tp self r self' :
  add_edge registry src sp tgt tp self = (Return r, self') ->
  src <> "init" /\ tgt <> "fin" /\
  exists ssig tsig dt,
    node_sig registry self src = Some ssig /\
    node_sig registry self tgt = Some tsig /\
    out_types ssig !! sp = Some dt /\ in_types tsig !! tp = Some dt /\
    self' = mkQFn (name self) (sig self)
              (mkGraph (nodes (G self))
                 (edges (G self) ++ [mkEdge src tgt (new_edge_key src tgt (G self)) sp tp dt])).
Proof.
  intros H. unfold_M. step_M.
  do 2 (split; [done|]). eexists _, _, _. unfold node_sig.
  rewrite E, E1. simpl. rewrite E0, E2. simpl.
  repeat split; try done.
  unfold nx_add_edge. rewrite !nx_touch_node_present; eauto.
  rewrite nx_touch_node_present; eauto.
Qed.

Lemma add_init_edge_Return sp tgt tp self r self' :
  add_init_edge registry sp tgt tp self = (Return r, self') ->
  exists tsig dt,
    in_types (sig self) !! sp = Some dt /\
    node_sig registry self tgt = Some tsig /\
    in_types tsig !! tp = Some dt /\
    self' = mkQFn (name self) (sig self)
              (nx_add_edge "init" tgt sp tp dt (G self)).
Proof.
  intros H. unfold_M. step_M.
  eexists _, _. unfold node_sig. rewrite E0. simpl. rewrite E1. simpl.
  repeat split; done.
Qed.

Lemma add_final_edge_Return src sp tp self r self' :
  add_final_edge registry src sp tp self = (Return r, self') ->
  exists ssig dt,
    out_types (sig self) !! tp = Some dt /\
    node_sig registry self src = Some ssig /\
    out_types ssig !! sp = Some dt /\
    self' = mkQFn (name self) (sig self)
              (nx_add_edge src "fin" sp tp dt (G self)).
Proof.
  intros H. unfold_M. step_M.
  eexists _, _. unfold node_sig. rewrite E0. simpl. rewrite E1. simpl.
  repeat split; done.
Qed.

(** [save_image] only reads. *)
Lemma mapM_label_state (l : list (string * gmap string string)) self :
  (mapM (M := M) (fun '(n, attr) => getitem (V := string) attr "label")
     l self).2 = self.
Proof.
  induction l as [|[n attr] l IH]; [done|].
  simpl. unfold mbind, M_bind, getitem, mret, M_ret, raise in *.
  destruct (attr !! "label"); simpl; [|done].
  destruct (mapM (M := M) _ l self) as [[ns|e] s'] eqn:E; simpl in *; by subst.
Qed.

Lemma save_image_state self : (save_image self).2 = self.
Proof.
  unfold save_image, get_G, mbind, M_bind, mret, M_ret.
  pose proof (mapM_label_state (map_to_list (nodes (G self))) self) as H.
  destruct (mapM (M := M) _ _ self) as [[ns|e] s'] eqn:E; simpl in *; by subst.
Qed.

Lemma run_SaveImage_state self r self' :
  run_call registry SaveImage self = (r, self') -> self' = self.
Proof.
  cbn [run_call]. intros H.
  pose proof (save_image_state self) as Hs. by rewrite H in Hs.
Qed.

Lemma add_node_eq n fnid label self :
  add_node n fnid label self =
  (Return tt, mkQFn (name self) (sig self)
     (nx_add_node n (node_attr fnid label) (G self))).
Proof. done. Qed.

(** A call that raises hands back the object it was given. *)
Lemma run_call_Raise c self e self' :
  run_call registry c self = (Raise e, self') -> self' = self.
Proof.
  destruct c; try (intros H; unfold_M; step_M; done).
  apply run_SaveImage_state.
Qed.

Lemma run_call_name_sig c self :
  name (run_call registry c self).2 = name self /\
  sig (run_call registry c self).2 = sig self.
Proof.
  destruct (run_call registry c self) as [[[]|e] self'] eqn:E; simpl.
  - destruct c; simpl in E.
    + rewrite add_node_eq in E. by simplify_eq.
    + apply add_edge_Return in E as (_ & _ & ? & ? & ? & _ & _ & _ & _ & ->). done.
    + apply add_init_edge_Return in E as (? & ? & _ & _ & _ & ->). done.
    + apply add_final_edge_Return in E as (? & ? & _ & _ & _ & ->). done.
    + apply run_SaveImage_state in E. by subst.
  - apply run_call_Raise in E. by subst.
Qed.

(** The effect of one call on the edge list: an edge insertion that returns
    appends one edge, every other call leaves the list as it is. *)
Lemma run_call_edges c self :
  exists tail : list Edge,
    edges (G (run_call registry c self).2) = edges (G self) ++ tail /\
    length tail =
      (if is_edge_call c && succeeds (run_call registry c self).1 then 1 else 0).
Proof.
  destruct (run_call registry c self) as [[[]|e] self'] eqn:E; simpl.
  - destruct c; simpl in E.
    + rewrite add_node_eq in E. simplify_eq. exists []. simpl.
      split; [|done]. unfold nx_add_node.
      destruct (nodes (G self) !! n); simpl; by rewrite app_nil_r.
    + apply add_edge_Return in E as (_ & _ & ? & ? & ? & _ & _ & _ & _ & ->).
      simpl. eauto.
    + apply add_init_edge_Return in E as (? & ? & _ & _ & _ & ->).
      simpl. eauto.
    + apply add_final_edge_Return in E as (? & ? & _ & _ & _ & ->).
      simpl. eauto.
    + apply run_SaveImage_state in E. subst.
      exists []. by rewrite app_nil_r.
  - apply run_call_Raise in E. subst. exists []. rewrite app_nil_r.
    by rewrite andb_false_r.
Qed.

Lemma run_call_node_count c self :
  node_count self <= node_count (run_call registry c self).2.
Proof.
  unfold node_count.
  destruct (run_call registry c self) as [[[]|e] self'] eqn:E; simpl.
  - destruct c; simpl in E.
    + rewrite add_node_eq in E. simplify_eq. simpl. apply nx_add_node_size.
    + apply add_edge_Return in E as (_ & _ & ? & ? & ? & _ & _ & _ & _ & ->).
      done.
    + apply add_init_edge_Return in E as (? & ? & _ & _ & _ & ->).
      simpl. etrans; [|apply nx_touch_node_size]. apply nx_touch_node_size.
    + apply add_final_edge_Return in E as (? & ? & _ & _ & _ & ->).
      simpl. etrans; [|apply nx_touch_node_size]. apply nx_touch_node_size.
    + apply run_SaveImage_state in E. by subst.
  - apply run_call_Raise in E. by subst.
Qed.

(** Scripts stay within the reachable states. *)
Lemma run_calls_reachable cs self :
  reachable registry self -> reachable registry (run_calls registry cs self).2.
Proof.
  revert self. induction cs as [|c cs IH]; intros self Hr; [done|].
  simpl. destruct (run_call registry c self) as [r self1] eqn:E1.
  specialize (IH self1 (reach_call _ _ _ _ _ Hr E1)).
  by destruct (run_calls registry cs self1).
Qed.

Lemma run_calls_reachable_fresh cs self :
  reachable_fresh registry self ->
  fresh_script registry cs self = true ->
  reachable_fresh registry (run_calls registry cs self).2.
Proof.
  revert self. induction cs as [|c cs IH]; intros self Hr Hf; [done|].
  simpl in *. apply andb_prop in Hf as [Hc Hf].
  destruct (run_call registry c self) as [r self1] eqn:E1. simpl in *.
  assert (reachable_fresh registry self1) as Hr1.
  { eapply fresh_call; [exact Hr| |exact E1].
    intros n fnid label ->. by apply bool_decide_eq_true in Hc. }
  specialize (IH self1 Hr1 Hf).
  by destruct (run_calls registry cs self1).
Qed.

Lemma nx_add_node_keeps n attr g m :
  is_Some (nodes g !! m) -> is_Some (nodes (nx_add_node n attr g) !! m).
Proof.
  intros Hm. unfold nx_add_node.
  destruct (nodes g !! n); simpl; rewrite lookup_insert; case_decide; eauto.
Qed.

Lemma QFn_init_G nm sg :
  G (QFn_init nm sg) =
  mkGraph (<["fin" := {["label" := ""]}]> {["init" := {["label" := ""]}]}) [].
Proof. by vm_compute. Qed.

Lemma QFn_init_edge_count nm sg : edge_count (QFn_init nm sg) = 0.
Proof. unfold edge_count. by rewrite QFn_init_G. Qed.

(** Both boundary nodes are nodes of every reachable object. *)
Lemma reachable_boundary self :
  reachable registry self ->
  is_Some (nodes (G self) !! "init") /\ is_Some (nodes (G self) !! "fin").
Proof.
  induction 1 as [nm sg|c self r self' Hr [IHi IHf] E].
  - rewrite QFn_init_G. simpl. split; eexists; by vm_compute.
  - destruct r as [[]|e]; [|apply run_call_Raise in E; by subst].
    destruct c; simpl in E.
    + rewrite add_node_eq in E. simplify_eq. simpl.
      split; by apply nx_add_node_keeps.
    + apply add_edge_Return in E as (_ & _ & ? & ? & ? & _ & _ & _ & _ & ->).
      done.
    + apply add_init_edge_Return in E as (? & ? & _ & Hn & _ & ->). simpl.
      unfold node_sig in Hn. destruct (nodes (G self) !! tgt) eqn:Et; [|done].
      rewrite !nx_touch_node_present; try done; rewrite ?nx_touch_node_present; eauto.
    + apply add_final_edge_Return in E as (? & ? & _ & Hn & _ & ->). simpl.
      unfold node_sig in Hn. destruct (nodes (G self) !! src) eqn:Et; [|done].
      rewrite !nx_touch_node_present; try done; rewrite ?nx_touch_node_present; eauto.
    + apply run_SaveImage_state in E. by subst.
Qed.

(** With both boundary nodes present, an edge insertion that returns leaves
    the node table alone. *)
Lemma edge_call_nodes c self self' :
  is_Some (nodes (G self) !! "init") ->
  is_Some (nodes (G self) !! "fin") ->
  is_edge_call c = true ->
  run_call registry c self = (Return tt, self') ->
  nodes (G self') = nodes (G self).
Proof.
  intros Hi Hf Hc E. destruct c; try done; simpl in E.
  - by apply add_edge_Return in E as (_ & _ & ? & ? & ? & _ & _ & _ & _ & ->).
  - apply add_init_edge_Return in E as (? & ? & _ & Hn & _ & ->). simpl.
    unfold node_sig in Hn. destruct (nodes (G self) !! tgt) eqn:Et; [|done].
    rewrite (nx_touch_node_present "init") by done.
    by rewrite nx_touch_node_present by eauto.
  - apply add_final_edge_Return in E as (? & ? & _ & Hn & _ & ->). simpl.
    unfold node_sig in Hn. destruct (nodes (G self) !! src) eqn:Et; [|done].
    rewrite (nx_touch_node_present src) by eauto.
    by rewrite nx_touch_node_present by done.
Qed.

Lemma reachable_fresh_reachable self :
  reachable_fresh registry self -> reachable registry self.
Proof. induction 1; [constructor|by eapply reach_call]. Qed.

(** A node that carries no ["fnid"] resolves to no signature. *)
Lemma node_sig_untagged self n attr :
  nodes (G self) !! n = Some attr -> attr !! "fnid" = None ->
  node_sig registry self n = None.
Proof. intros Hn Ha. unfold node_sig. rewrite Hn. simpl. by rewrite Ha. Qed.

Lemma node_sig_present self n s :
  node_sig registry self n = Some s -> is_Some (nodes (G self) !! n).
Proof. unfold node_sig. destruct (nodes (G self) !! n); [eauto|done]. Qed.

(** As long as no node is added twice, the boundary nodes keep the
    attributes [__init__] gave them: a label and no operation identifier. *)
Lemma reachable_fresh_boundary self :
  reachable_fresh registry self ->
  nodes (G self) !! "init" = Some {["label" := ""]} /\
  nodes (G self) !! "fin" = Some {["label" := ""]}.
Proof.
  induction 1 as [nm sg|c self r self' Hr [IHi IHf] Hfresh E].
  - rewrite QFn_init_G. simpl. split; by vm_compute.
  - destruct r as [[]|e]; [|apply run_call_Raise in E; by subst].
    destruct (is_edge_call c) eqn:Hc.
    + apply edge_call_nodes in E; [|by eauto..]. by rewrite E.
    + destruct c; try done.
      * specialize (Hfresh _ _ _ eq_refl). simpl in E.
        rewrite add_node_eq in E. simplify_eq. simpl.
        unfold nx_add_node. rewrite Hfresh. simpl.
        rewrite !lookup_insert_ne; [done|congruence..].
      * apply run_SaveImage_state in E. by subst.
Qed.

(** Typing of an edge only depends on the circuit signature and on the
    entries of its two endpoints in the node table. *)
Lemma edge_typed_frame self self' e :
  sig self' = sig self ->
  (forall n, is_Some (nodes (G self) !! n) ->
             nodes (G self') !! n = nodes (G self) !! n) ->
  is_Some (nodes (G self) !! e_src e) ->
  is_Some (nodes (G self) !! e_tgt e) ->
  edge_typed registry self e -> edge_typed registry self' e.
Proof.
  intros Hsig Hnodes Hs Ht [Ho Hi].
  unfold edge_typed, declared_out, declared_in, node_sig in *.
  rewrite Hsig, !Hnodes by done. done.
Qed.

(** The invariant behind type safety: every stored edge joins two nodes of
    the table and carries the type declared at both of its ports. *)
Lemma reachable_fresh_edges self :
  reachable_fresh registry self ->
  Forall (fun e => endpoints_present self e /\ edge_typed registry self e)
         (edges (G self)).
Proof.
  induction 1 as [nm sg|c self r self' Hr IH Hfresh E].
  - rewrite QFn_init_G. constructor.
  - destruct r as [[]|e]; [|apply run_call_Raise in E; by subst].
    destruct (reachable_fresh_boundary self Hr) as [Hi Hf].
    pose proof (run_call_name_sig c self) as [_ Hsig]. rewrite E in Hsig.
    simpl in Hsig.
    assert (forall n, is_Some (nodes (G self) !! n) ->
                      nodes (G self') !! n = nodes (G self) !! n) as Hkeep.
    { destruct (is_edge_call c) eqn:Hc.
      - intros n _. by rewrite (edge_call_nodes c self self') by eauto.
      - destruct c; try done.
        + specialize (Hfresh _ _ _ eq_refl). simpl in E.
          rewrite add_node_eq in E. simplify_eq. simpl.
          unfold nx_add_node. rewrite Hfresh. simpl.
          intros m [a Hm]. rewrite lookup_insert_ne; [done|congruence].
        + apply run_SaveImage_state in E. by subst. }
    assert (Forall (fun e => endpoints_present self' e /\
                             edge_typed registry self' e) (edges (G self)))
      as Hold.
    { eapply Forall_impl; [exact IH|]. intros e [[Hs Ht] Hty]. split.
      - split; rewrite Hkeep; done.
      - by eapply edge_typed_frame. }
    destruct c; simpl in E.
    + rewrite add_node_eq in E. simplify_eq. simpl in *.
      unfold nx_add_node in *. by destruct (nodes (G self) !! n).
    + apply add_edge_Return in E
        as (Hsi & Htf & ssig & tsig & dt & Hs & Ht & Hso & Hti & ->).
      simpl in *. apply Forall_app. split; [done|].
      constructor; [|done]. split.
      * split; simpl; by eapply node_sig_present.
      * unfold edge_typed, declared_out, declared_in. simpl.
        rewrite !decide_False by done.
        unfold node_sig in *. simpl. rewrite Hs, Ht. done.
    + assert (tgt <> "fin") as Htf.
      { intros ->. apply add_init_edge_Return in E as (? & ? & _ & Hn & _).
        by rewrite (node_sig_untagged self "fin" _ Hf) in Hn. }
      pose proof E as E'.
      apply (edge_call_nodes (AddInitEdge sp tgt tp)) in E'; [|by eauto..].
      apply add_init_edge_Return in E as (tsig & dt & Hso & Ht & Hti & ->).
      simpl in *. apply Forall_app. split; [done|].
      constructor; [|done]. split.
      * split; simpl; rewrite E'; [by eauto|by eapply node_sig_present].
      * unfold edge_typed, declared_out, declared_in. simpl.
        rewrite decide_False by done.
        unfold node_sig in *. simpl. rewrite E', Ht. done.
    + assert (src <> "init") as Hsi.
      { intros ->. apply add_final_edge_Return in E as (? & ? & _ & Hn & _).
        by rewrite (node_sig_untagged self "init" _ Hi) in Hn. }
      pose proof E as E'.
      apply (edge_call_nodes (AddFinalEdge src sp tp)) in E'; [|by eauto..].
      apply add_final_edge_Return in E as (ssig & dt & Hto & Hs & Hso & ->).
      simpl in *. apply Forall_app. split; [done|].
      constructor; [|done]. split.
      * split; simpl; rewrite E'; [by eapply node_sig_present|by eauto].
      * unfold edge_typed, declared_out, declared_in. simpl.
        rewrite decide_False by done.
        unfold node_sig in *. simpl. rewrite E', Hs. done.
    + apply run_SaveImage_state in E. by subst.
Qed.

End Facts.

(** ** The claims *)

(** C8. The two-gate scenario of [test]: with the table [fn_types] and the
    circuit signature q0, q1 : Qubit on both sides, the seven calls all
    return, and the object then has exactly the four nodes init, fin, H, CX
    and exactly five edges, each carrying the data type Qubit. *)
Theorem bell_scenario :
  test.1 = replicate 7 (Return tt) /\
  dom (nodes (G test.2)) = {["init"; "fin"; "H"; "CX"]} /\
  node_count test.2 = 4 /\
  edge_count test.2 = 5 /\
  edges (G test.2) =
    [ mkEdge "init" "H" 0 "q0" "q" "Qubit";
      mkEdge "H" "CX" 0 "q" "ctl" "Qubit";
      mkEdge "init" "CX" 0 "q1" "tgt" "Qubit";
      mkEdge "CX" "fin" 0 "ctl" "q0" "Qubit";
      mkEdge "CX" "fin" 1 "tgt" "q1" "Qubit" ] /\
  Forall (fun e => datatype e = "Qubit") (edges (G test.2)).
Proof.
  assert (edges (G test.2) =
    [ mkEdge "init" "H" 0 "q0" "q" "Qubit";
      mkEdge "H" "CX" 0 "q" "ctl" "Qubit";
      mkEdge "init" "CX" 0 "q1" "tgt" "Qubit";
      mkEdge "CX" "fin" 0 "ctl" "q0" "Qubit";
      mkEdge "CX" "fin" 1 "tgt" "q1" "Qubit" ]) as He by (by vm_compute).
  repeat split; try (by vm_compute); try done.
  rewrite He. repeat constructor.
Qed.

(** C6. Forward boundary isolation: an [add_edge] call whose source is the
    start node, or whose target is the end node, raises the [ValueError]
    that names the boundary entry point to use, and the object is as it was
    before the call. *)
Theorem add_edge_forward_boundary registry src sp tgt tp self :
  src = "init" \/ tgt = "fin" ->
  exists e,
    add_edge registry src sp tgt tp self = (Raise e, self) /\
    MisusedBoundaryNode e /\
    (src = "init" -> e = ValueError "Please use `add_init_edge`") /\
    (src <> "init" -> e = ValueError "Please use `add_final_edge`").
Proof.
  intros Hb. unfold add_edge, MisusedBoundaryNode.
  destruct (decide (src = "init")) as [->|Hs].
  - eexists. split; [done|]. split; [by left|]. done.
  - destruct Hb as [Hb | Hb]; [done|]. subst tgt.
    rewrite decide_True by done.
    eexists. split; [done|]. split; [by right|]. done.
Qed.

Lemma add_edge_forward_boundary_witness :
  exists e,
    add_edge fn_types "init" "q0" "H" "q" (QFn_init "bell" bell_sig)
      = (Raise e, QFn_init "bell" bell_sig) /\
    MisusedBoundaryNode e /\
    ("init" = "init" -> e = ValueError "Please use `add_init_edge`") /\
    ("init" <> "init" -> e = ValueError "Please use `add_final_edge`").
Proof. apply add_edge_forward_boundary. left. reflexivity. Defined.

(** C2. [add_edge] between two existing operation nodes other than the
    boundary nodes, both tagged with a key of the table: the source type is
    read from the source operation's [out_types], the target type from the
    target operation's [in_types].  A port name missing from its dictionary
    raises [KeyError] on that name; two types that differ raise the
    type-mismatch [ValueError] whose message carries both, and that error
    arises exactly then; otherwise the call returns and the only change to
    the object is one edge, carrying the common type, appended to the edges. *)
Theorem add_edge_operation_nodes registry src sp tgt tp self ssig tsig :
  src <> "init" -> src <> "fin" -> tgt <> "init" -> tgt <> "fin" ->
  node_sig registry self src = Some ssig ->
  node_sig registry self tgt = Some tsig ->
  add_edge registry src sp tgt tp self =
    match out_types ssig !! sp, in_types tsig !! tp with
    | None, _ => (Raise (KeyError sp), self)
    | Some _, None => (Raise (KeyError tp), self)
    | Some s, Some t =>
        if decide (s = t)
        then (Return tt,
              mkQFn (name self) (sig self)
                (mkGraph (nodes (G self))
                   (edges (G self) ++
                     [mkEdge src tgt (new_edge_key src tgt (G self)) sp tp s])))
        else (Raise (ValueError ("Type mismatch: " +:+ s +:+ " != " +:+ t)),
              self)
    end /\
  (forall msg self',
     add_edge registry src sp tgt tp self = (Raise (ValueError msg), self') <->
     exists s t,
       out_types ssig !! sp = Some s /\ in_types tsig !! tp = Some t /\
       s <> t /\ msg = "Type mismatch: " +:+ s +:+ " != " +:+ t /\
       self' = self).
Proof.
  intros Hsi Hsf Hti Htf Hs Ht.
  assert (add_edge registry src sp tgt tp self =
    match out_types ssig !! sp, in_types tsig !! tp with
    | None, _ => (Raise (KeyError sp), self)
    | Some _, None => (Raise (KeyError tp), self)
    | Some s, Some t =>
        if decide (s = t)
        then (Return tt,
              mkQFn (name self) (sig self)
                (mkGraph (nodes (G self))
                   (edges (G self) ++
                     [mkEdge src tgt (new_edge_key src tgt (G self)) sp tp s])))
        else (Raise (ValueError (type_mismatch s t)), self)
    end) as Heq.
  { unfold node_sig in Hs, Ht.
    destruct (nodes (G self) !! src) as [sa|] eqn:Esa; [|done].
    destruct (nodes (G self) !! tgt) as [ta|] eqn:Eta; [|done].
    simpl in Hs, Ht.
    destruct (sa !! "fnid") as [sf|] eqn:Esf; [|done].
    destruct (ta !! "fnid") as [tf|] eqn:Etf; [|done].
    simpl in Hs, Ht.
    unfold add_edge. rewrite !decide_False by done.
    unfold getitem, raise, get_G, set_G, mbind, M_bind, mret, M_ret.
    rewrite Esa, Esf, Eta, Etf, Hs.
    destruct (out_types ssig !! sp) as [s|]; [|done].
    rewrite Ht. destruct (in_types tsig !! tp) as [t|]; [|done].
    destruct (decide (s = t)) as [->|Hne].
    - rewrite decide_False by (intros ?; done).
      unfold nx_add_edge.
      rewrite (nx_touch_node_present src) by eauto.
      rewrite (nx_touch_node_present tgt) by eauto. done.
    - by rewrite decide_True. }
  split; [exact Heq|]. intros msg self'. rewrite Heq. split.
  - intros H.
    destruct (out_types ssig !! sp) as [s'|]; [|done].
    destruct (in_types tsig !! tp) as [t'|]; [|done].
    destruct (decide (s' = t')); [done|].
    injection H as <- <-. exists s', t'. by repeat split.
  - intros (s & t & -> & -> & Hne & -> & ->). by rewrite decide_False.
Qed.

Lemma add_edge_operation_nodes_witness :
  add_edge fn_types "H" "q" "CX" "ctl" bell_nodes =
    match out_types H_gate_sig !! "q", in_types CX_gate_sig !! "ctl" with
    | None, _ => (Raise (KeyError "q"), bell_nodes)
    | Some _, None => (Raise (KeyError "ctl"), bell_nodes)
    | Some s, Some t =>
        if decide (s = t)
        then (Return tt,
              mkQFn (name bell_nodes) (sig bell_nodes)
                (mkGraph (nodes (G bell_nodes))
                   (edges (G bell_nodes) ++
                     [mkEdge "H" "CX" (new_edge_key "H" "CX" (G bell_nodes))
                        "q" "ctl" s])))
        else (Raise (ValueError ("Type mismatch: " +:+ s +:+ " != " +:+ t)),
              bell_nodes)
    end /\
  (forall msg self',
     add_edge fn_types "H" "q" "CX" "ctl" bell_nodes
       = (Raise (ValueError msg), self') <->
     exists s t,
       out_types H_gate_sig !! "q" = Some s /\
       in_types CX_gate_sig !! "ctl" = Some t /\
       s <> t /\ msg = "Type mismatch: " +:+ s +:+ " != " +:+ t /\
       self' = bell_nodes).
Proof.
  apply (add_edge_operation_nodes fn_types "H" "q" "CX" "ctl" bell_nodes
           H_gate_sig CX_gate_sig); first [ discriminate | vm_compute; reflexivity ].
Defined.

(** C7. Atomicity of failure: whichever call raises, for whatever reason,
    the object handed back is the object the call was given, so node count
    and edge count are what they were, and every further call behaves on it
    as it would have without the failed call. *)
Theorem failed_call_leaves_object registry c self e self' :
  run_call registry c self = (Raise e, self') ->
  self' = self /\
  node_count self' = node_count self /\
  edge_count self' = edge_count self /\
  (forall c', run_call registry c' self' = run_call registry c' self).
Proof. intros H. apply run_call_Raise in H. by subst. Qed.

Lemma failed_call_leaves_object_witness :
  bell_nodes = bell_nodes /\
  node_count bell_nodes = node_count bell_nodes /\
  edge_count bell_nodes = edge_count bell_nodes /\
  (forall c', run_call fn_types c' bell_nodes = run_call fn_types c' bell_nodes).
Proof.
  apply (failed_call_leaves_object fn_types (AddEdge "H" "q" "CX" "q")
           bell_nodes (KeyError "q") bell_nodes).
  vm_compute. reflexivity.
Defined.

(** C9. Append-only: run from a fresh object, a script leaves as many edges
    as it made edge insertions that returned; a call changes the edge count
    by one when it is an edge insertion that returns (whatever edges are
    already there) and by nothing otherwise; and no call, failed calls and
    [save_image] included, lowers the node count. *)
Theorem append_only registry :
  (forall cs nm sg,
     edge_count (run_calls registry cs (QFn_init nm sg)).2 =
     successful_edge_insertions cs (run_calls registry cs (QFn_init nm sg)).1) /\
  (forall c self,
     edge_count (run_call registry c self).2 =
     edge_count self +
     (if is_edge_call c && succeeds (run_call registry c self).1 then 1 else 0)) /\
  (forall c self, node_count self <= node_count (run_call registry c self).2).
Proof.
  assert (forall c self,
     edge_count (run_call registry c self).2 =
     edge_count self +
     (if is_edge_call c && succeeds (run_call registry c self).1 then 1 else 0))
    as Hstep.
  { intros c self. unfold edge_count.
    destruct (run_call_edges registry c self) as (tail & -> & <-).
    by rewrite length_app. }
  split; [|split; [exact Hstep|apply run_call_node_count]].
  assert (forall cs self,
     edge_count (run_calls registry cs self).2 =
     edge_count self +
     successful_edge_insertions cs (run_calls registry cs self).1) as Hrun.
  { induction cs as [|c cs IH]; intros self; simpl; [lia|].
    specialize (Hstep c self).
    destruct (run_call registry c self) as [r self1] eqn:E1.
    specialize (IH self1).
    destruct (run_calls registry cs self1) as [rs self2] eqn:E2.
    simpl in *. lia. }
  intros cs nm sg. rewrite Hrun. by rewrite QFn_init_edge_count.
Qed.

(** The multigraph keeps parallel edges: the same edge inserted twice is
    stored twice, under keys 0 and 1. *)
Example parallel_edges :
  edges (G (run_calls fn_types
              [AddEdge "H" "q" "CX" "ctl"; AddEdge "H" "q" "CX" "ctl"]
              bell_nodes).2) =
  [ mkEdge "H" "CX" 0 "q" "ctl" "Qubit"; mkEdge "H" "CX" 1 "q" "ctl" "Qubit" ].
Proof. by vm_compute. Qed.

(** C10. Node-set frame: in every reachable object, an edge insertion
    (ordinary, boundary-input or boundary-output) that returns leaves the
    node table, names and attributes, exactly as it was: the endpoint
    creation inside the raw edge insertion never fires, because each endpoint
    was looked up first or is a boundary node. *)
Theorem edge_insertion_keeps_nodes registry self c self' :
  reachable registry self ->
  is_edge_call c = true ->
  run_call registry c self = (Return tt, self') ->
  nodes (G self') = nodes (G self).
Proof.
  intros Hr Hc E. destruct (reachable_boundary registry self Hr) as [Hi Hf].
  by eapply edge_call_nodes.
Qed.

Lemma bell_nodes_reachable : reachable fn_types bell_nodes.
Proof. apply run_calls_reachable. constructor. Qed.

Lemma edge_insertion_keeps_nodes_witness :
  nodes (G (run_call fn_types (AddInitEdge "q0" "H" "q") bell_nodes).2) =
  nodes (G bell_nodes).
Proof.
  apply (edge_insertion_keeps_nodes fn_types bell_nodes (AddInitEdge "q0" "H" "q")).
  - apply bell_nodes_reachable.
  - reflexivity.
  - vm_compute. reflexivity.
Defined.

(** C1, as stated, fails.  The script [retag_calls] runs without an error,
    yet in the object it leaves the edge from H.q to CX.ctl still records
    Qubit while its source, now tagged CX_gate, declares no output port q. *)
Lemma type_safety_counterexample :
  (run_calls fn_types retag_calls (QFn_init "bell" bell_sig)).1
    = replicate 4 (Return tt) /\
  reachable fn_types retagged /\
  edges (G retagged) = [mkEdge "H" "CX" 0 "q" "ctl" "Qubit"] /\
  declared_out fn_types retagged "H" "q" = None /\
  ~ type_safe fn_types retagged.
Proof.
  assert (edges (G retagged) = [mkEdge "H" "CX" 0 "q" "ctl" "Qubit"]) as He
    by (by vm_compute).
  assert (declared_out fn_types retagged "H" "q" = None) as Hd
    by (by vm_compute).
  split; [by vm_compute|]. split; [apply run_calls_reachable; constructor|].
  do 2 (split; [done|]).
  unfold type_safe. rewrite He. intros Hs.
  apply Forall_inv in Hs as [Ho _]. simpl in Ho. congruence.
Qed.

(** C1, amended.  In every object reached by calls among which no
    [add_node] names a node already present, every stored edge records the
    type declared for its output port at its source and for its input port
    at its target. *)
Theorem type_safety_fresh_names registry self :
  reachable_fresh registry self -> type_safe registry self.
Proof.
  intros Hr. unfold type_safe.
  eapply Forall_impl; [by apply reachable_fresh_edges|]. by intros e [_ He].
Qed.

Lemma type_safety_fresh_names_witness : type_safe fn_types test.2.
Proof.
  apply type_safety_fresh_names.
  apply run_calls_reachable_fresh; [constructor|vm_compute; reflexivity].
Defined.

(** C4, as stated, fails.  Adding a node named H a second time returns, and
    the stored operation identifier and label of H are replaced; adding a
    node under the reserved name init returns as well. *)
Lemma duplicate_node_counterexample :
  nodes (G bell_nodes) !! "H" = Some (node_attr "H_gate" "H") /\
  (exists self',
     add_node "H" "CX_gate" "X" bell_nodes = (Return tt, self') /\
     nodes (G self') !! "H" = Some (node_attr "CX_gate" "X")) /\
  (exists self',
     add_node "init" "H_gate" "" bell_nodes = (Return tt, self') /\
     nodes (G self') !! "init" = Some (node_attr "H_gate" "")).
Proof.
  split; [by vm_compute|].
  split; (eexists; split; [apply add_node_eq|vm_compute; reflexivity]).
Qed.

(** C4, amended.  [add_node] under the name of a node already in the graph
    (the reserved names included) returns; the set of node names, the node
    count, the edges and every other node's data stay as they were, and the
    named node's operation identifier and label become the ones passed. *)
Theorem add_node_existing_name n fnid label self old :
  nodes (G self) !! n = Some old ->
  exists self',
    add_node n fnid label self = (Return tt, self') /\
    dom (nodes (G self')) = dom (nodes (G self)) /\
    node_count self' = node_count self /\
    edges (G self') = edges (G self) /\
    (forall m, m <> n -> nodes (G self') !! m = nodes (G self) !! m) /\
    (exists attr, nodes (G self') !! n = Some attr /\
                  attr !! "fnid" = Some fnid /\ attr !! "label" = Some label /\
                  forall k, k <> "fnid" -> k <> "label" -> attr !! k = old !! k).
Proof.
  intros Hn. eexists. split; [apply add_node_eq|]. simpl.
  unfold node_count, nx_add_node. rewrite Hn. simpl.
  split; [|split; [|split; [done|split]]].
  - rewrite dom_insert_L. apply elem_of_dom_2 in Hn.
    apply subseteq_union_1_L. by apply singleton_subseteq_l.
  - rewrite map_size_insert_Some; eauto.
  - intros m Hm. by rewrite lookup_insert_ne.
  - eexists. split; [apply lookup_insert_eq|].
    split; [|split].
    + apply lookup_union_Some_l. unfold node_attr.
      by rewrite lookup_insert_ne, lookup_singleton_eq.
    + apply lookup_union_Some_l. unfold node_attr. by rewrite lookup_insert_eq.
    + intros k Hk1 Hk2. rewrite lookup_union_r; [done|]. unfold node_attr.
      by rewrite lookup_insert_ne, lookup_singleton_ne.
Qed.

Lemma add_node_existing_name_witness :
  exists self',
    add_node "H" "CX_gate" "X" bell_nodes = (Return tt, self') /\
    dom (nodes (G self')) = dom (nodes (G bell_nodes)) /\
    node_count self' = node_count bell_nodes /\
    edges (G self') = edges (G bell_nodes) /\
    (forall m, m <> "H" -> nodes (G self') !! m = nodes (G bell_nodes) !! m) /\
    (exists attr, nodes (G self') !! "H" = Some attr /\
                  attr !! "fnid" = Some "CX_gate" /\ attr !! "label" = Some "X" /\
                  forall k, k <> "fnid" -> k <> "label" ->
                            attr !! k = node_attr "H_gate" "H" !! k).
Proof.
  apply (add_node_existing_name "H" "CX_gate" "X" bell_nodes
           (node_attr "H_gate" "H")).
  vm_compute. reflexivity.
Defined.

(** C5, as stated, fails.  Z_gate is no key of [fn_types], yet adding a
    node tagged Z_gate returns and the node is stored. *)
Lemma unknown_operation_counterexample :
  fn_types !! "Z_gate" = None /\
  node_count (QFn_init "bell" bell_sig) = 2 /\
  exists self',
    add_node "Z" "Z_gate" "" (QFn_init "bell" bell_sig) = (Return tt, self') /\
    nodes (G self') !! "Z" = Some (node_attr "Z_gate" "") /\
    node_count self' = 3.
Proof.
  split; [by vm_compute|]. split; [by vm_compute|].
  eexists. split; [apply add_node_eq|]. split; by vm_compute.
Qed.

(** C5, amended.  [add_node] with an operation identifier that is no key of
    the table returns and stores the node under that identifier.  The
    identifier is looked up only by a later edge call that has to resolve
    the node's signature, and that call raises [KeyError] on the identifier
    and leaves the object as it was. *)
Theorem add_node_unknown_operation registry n fnid label self :
  registry !! fnid = None ->
  exists self',
    add_node n fnid label self = (Return tt, self') /\
    (exists attr, nodes (G self') !! n = Some attr /\ attr !! "fnid" = Some fnid) /\
    (forall sp tp,
       is_Some (in_types (sig self') !! sp) ->
       add_init_edge registry sp n tp self' = (Raise (KeyError fnid), self')) /\
    (forall sp tp,
       is_Some (out_types (sig self') !! tp) ->
       add_final_edge registry n sp tp self' = (Raise (KeyError fnid), self')) /\
    (forall sp tgt tp,
       n <> "init" -> tgt <> "fin" ->
       (exists attr f, nodes (G self') !! tgt = Some attr /\ attr !! "fnid" = Some f) ->
       add_edge registry n sp tgt tp self' = (Raise (KeyError fnid), self')).
Proof.
  intros Hreg. eexists. split; [apply add_node_eq|].
  set (self' := mkQFn _ _ _).
  assert (exists attr, nodes (G self') !! n = Some attr /\ attr !! "fnid" = Some fnid)
    as (attr & Hn & Hf).
  { subst self'. simpl. unfold nx_add_node.
    destruct (nodes (G self) !! n) as [old|]; simpl;
      (eexists; split; [apply lookup_insert_eq|]).
    - apply lookup_union_Some_l. unfold node_attr.
      by rewrite lookup_insert_ne, lookup_singleton_eq.
    - unfold node_attr. by rewrite lookup_insert_ne, lookup_singleton_eq. }
  split; [eauto|]. clearbody self'. repeat split.
  - intros sp tp [dt Hdt]. unfold_M. by rewrite Hdt, Hn, Hf, Hreg.
  - intros sp tp [dt Hdt]. unfold_M. by rewrite Hdt, Hn, Hf, Hreg.
  - intros sp tgt tp Hni Htf (ta & tf & Ht & Htf'). unfold_M.
    rewrite !decide_False by done. by rewrite Hn, Hf, Ht, Htf', Hreg.
Qed.

Lemma add_node_unknown_operation_witness :
  exists self',
    add_node "Z" "Z_gate" "" bell_nodes = (Return tt, self') /\
    (exists attr, nodes (G self') !! "Z" = Some attr /\
                  attr !! "fnid" = Some "Z_gate") /\
    (forall sp tp,
       is_Some (in_types (sig self') !! sp) ->
       add_init_edge fn_types sp "Z" tp self' = (Raise (KeyError "Z_gate"), self')) /\
    (forall sp tp,
       is_Some (out_types (sig self') !! tp) ->
       add_final_edge fn_types "Z" sp tp self' = (Raise (KeyError "Z_gate"), self')) /\
    (forall sp tgt tp,
       "Z" <> "init" -> tgt <> "fin" ->
       (exists attr f, nodes (G self') !! tgt = Some attr /\ attr !! "fnid" = Some f) ->
       add_edge fn_types "Z" sp tgt tp self' = (Raise (KeyError "Z_gate"), self')).
Proof.
  apply (add_node_unknown_operation fn_types "Z" "Z_gate" "" bell_nodes).
  vm_compute. reflexivity.
Defined.

(** C3, as stated, fails.  With H and CX added, an ordinary edge into the
    start node, and one out of the end node, raise [KeyError] on ["fnid"],
    which is not the boundary-misuse error; and once a node named init has
    been added as an H gate, the edge into the start node is accepted. *)
Lemma reverse_boundary_counterexample :
  add_edge fn_types "H" "q" "init" "q" bell_nodes
    = (Raise (KeyError "fnid"), bell_nodes) /\
  add_edge fn_types "fin" "q" "H" "q" bell_nodes
    = (Raise (KeyError "fnid"), bell_nodes) /\
  ~ MisusedBoundaryNode (KeyError "fnid") /\
  exists self',
    add_edge fn_types "H" "q" "init" "q"
      (add_node "init" "H_gate" "" bell_nodes).2 = (Return tt, self') /\
    edges (G self') = [mkEdge "H" "init" 0 "q" "q" "Qubit"].
Proof.
  split; [by vm_compute|]. split; [by vm_compute|]. split.
  - by intros [?|?].
  - eexists. split; vm_compute; reflexivity.
Qed.

(** C3, amended.  In every object reached without adding a node under a
    name already present, an [add_edge] call with the start node as target,
    or with the end node as source, raises and leaves the object as it was.
    The error is the boundary-misuse [ValueError] only when the source is
    the start node, respectively the target the end node; otherwise it is a
    [KeyError], on the source name or on ["fnid"], from the lookup of the
    operation identifier. *)
Theorem add_edge_reverse_boundary registry self :
  reachable_fresh registry self ->
  (forall src sp tp, exists e,
      add_edge registry src sp "init" tp self = (Raise e, self) /\
      (src = "init" -> e = ValueError "Please use `add_init_edge`") /\
      (src <> "init" -> e = KeyError src \/ e = KeyError "fnid")) /\
  (forall sp tgt tp, exists e,
      add_edge registry "fin" sp tgt tp self = (Raise e, self) /\
      (tgt = "fin" -> e = ValueError "Please use `add_final_edge`") /\
      (tgt <> "fin" -> e = KeyError "fnid")).
Proof.
  intros Hr. destruct (reachable_fresh_boundary registry self Hr) as [Hi Hf].
  split.
  - intros src sp tp. unfold add_edge.
    destruct (decide (src = "init")) as [->|Hs]; [raised|].
    rewrite decide_False by done.
    unfold getitem, raise, get_G, mbind, M_bind, mret, M_ret.
    destruct (nodes (G self) !! src) as [sa|] eqn:Es; [|raised].
    destruct (sa !! "fnid") as [sf|] eqn:Esf; [|raised].
    rewrite Hi. rewrite lookup_singleton_ne by done. raised.
  - intros sp tgt tp. unfold add_edge. rewrite decide_False by done.
    destruct (decide (tgt = "fin")) as [->|Ht]; [raised|].
    unfold getitem, raise, get_G, mbind, M_bind, mret, M_ret.
    rewrite Hf. rewrite lookup_singleton_ne by done. raised.
Qed.

Lemma add_edge_reverse_boundary_witness :
  (forall src sp tp, exists e,
      add_edge fn_types src sp "init" tp test.2 = (Raise e, test.2) /\
      (src = "init" -> e = ValueError "Please use `add_init_edge`") /\
      (src <> "init" -> e = KeyError src \/ e = KeyError "fnid")) /\
  (forall sp tgt tp, exists e,
      add_edge fn_types "fin" sp tgt tp test.2 = (Raise e, test.2) /\
      (tgt = "fin" -> e = ValueError "Please use `add_final_edge`") /\
      (tgt <> "fin" -> e = KeyError "fnid")).
Proof.
  apply add_edge_reverse_boundary.
  apply run_calls_reachable_fresh; [constructor|vm_compute; reflexivity].
Defined.

(** ** The rest of the class: boundary edges, node insertion, export *)

Section MoreFacts.

Variable registry : gmap string Sig.

(** The edge methods as functions of what they look up. *)
Lemma add_init_edge_resolved sp tgt tp self dt tsig :
  in_types (sig self) !! sp = Some dt ->
  node_sig registry self tgt = Some tsig ->
  add_init_edge registry sp tgt tp self =
    match in_types tsig !! tp with
    | None => (Raise (KeyError tp), self)
    | Some t =>
        if decide (dt = t)
        then (Return tt, mkQFn (name self) (sig self)
                           (nx_add_edge "init" tgt sp tp dt (G self)))
        else (Raise (ValueError (type_mismatch dt t)), self)
    end.
Proof.
  intros Hdt Ht. unfold node_sig in Ht.
  destruct (nodes (G self) !! tgt) as [ta|] eqn:Eta; [|done]. simpl in Ht.
  destruct (ta !! "fnid") as [tf|] eqn:Etf; [|done]. simpl in Ht.
  unfold add_init_edge, getitem, raise, get_G, get_sig, set_G,
    mbind, M_bind, mret, M_ret.
  rewrite Hdt, Eta, Etf, Ht.
  destruct (in_types tsig !! tp) as [t|]; [|done].
  destruct (decide (dt = t)) as [->|Hne].
  - by rewrite decide_False by (intros ?; done).
  - by rewrite decide_True.
Qed.

Lemma add_final_edge_resolved src sp tp self dt ssig :
  out_types (sig self) !! tp = Some dt ->
  node_sig registry self src = Some ssig ->
  add_final_edge registry src sp tp self =
    match out_types ssig !! sp with
    | None => (Raise (KeyError sp), self)
    | Some s =>
        if decide (s = dt)
        then (Return tt, mkQFn (name self) (sig self)
                           (nx_add_edge src "fin" sp tp s (G self)))
        else (Raise (ValueError (type_mismatch s dt)), self)
    end.
Proof.
  intros Hdt Hs. unfold node_sig in Hs.
  destruct (nodes (G self) !! src) as [sa|] eqn:Esa; [|done]. simpl in Hs.
  destruct (sa !! "fnid") as [sf|] eqn:Esf; [|done]. simpl in Hs.
  unfold add_final_edge, getitem, raise, get_G, get_sig, set_G,
    mbind, M_bind, mret, M_ret.
  rewrite Hdt, Esa, Esf, Hs.
  destruct (out_types ssig !! sp) as [s|]; [|done].
  destruct (decide (s = dt)) as [->|Hne].
  - by rewrite decide_False by (intros ?; done).
  - by rewrite decide_True.
Qed.

Lemma add_edge_resolved src sp tgt tp self ssig tsig :
  src <> "init" -> tgt <> "fin" ->
  node_sig registry self src = Some ssig ->
  node_sig registry self tgt = Some tsig ->
  add_edge registry src sp tgt tp self =
    match out_types ssig !! sp with
    | None => (Raise (KeyError sp), self)
    | Some s =>
        match in_types tsig !! tp with
        | None => (Raise (KeyError tp), self)
        | Some t =>
            if decide (s = t)
            then (Return tt, mkQFn (name self) (sig self)
                               (nx_add_edge src tgt sp tp s (G self)))
            else (Raise (ValueError (type_mismatch s t)), self)
        end
    end.
Proof.
  intros Hsi Htf Hs Ht. unfold node_sig in Hs, Ht.
  destruct (nodes (G self) !! src) as [sa|] eqn:Esa; [|done].
  destruct (nodes (G self) !! tgt) as [ta|] eqn:Eta; [|done].
  simpl in Hs, Ht.
  destruct (sa !! "fnid") as [sf|] eqn:Esf; [|done].
  destruct (ta !! "fnid") as [tf|] eqn:Etf; [|done].
  simpl in Hs, Ht.
  unfold add_edge. rewrite !decide_False by done.
  unfold getitem, raise, get_G, set_G, mbind, M_bind, mret, M_ret.
  rewrite Esa, Esf, Eta, Etf, Hs.
  destruct (out_types ssig !! sp) as [s|]; [|done].
  rewrite Ht. destruct (in_types tsig !! tp) as [t|]; [|done].
  destruct (decide (s = t)) as [->|Hne].
  - by rewrite decide_False by (intros ?; done).
  - by rewrite decide_True.
Qed.

Lemma nx_add_edge_present u v sp tp dt g :
  is_Some (nodes g !! u) -> is_Some (nodes g !! v) ->
  nx_add_edge u v sp tp dt g =
  mkGraph (nodes g) (edges g ++ [mkEdge u v (new_edge_key u v g) sp tp dt]).
Proof.
  intros Hu Hv. unfold nx_add_edge.
  rewrite (nx_touch_node_present u) by done.
  by rewrite nx_touch_node_present by done.
Qed.

End MoreFacts.

(** X1. [add_init_edge] on an object that has its start node.  The call
    returns exactly when the circuit declares input port [sp], the target is
    a node tagged with an operation of the table, that operation declares
    input port [tp], and the two declared types are the same; the object
    returned differs only by one appended edge, from init, carrying that
    type.  It raises a [ValueError] exactly when both types resolve and
    differ, and the message names the circuit's type first. *)
Theorem add_init_edge_outcomes registry sp tgt tp self :
  is_Some (nodes (G self) !! "init") ->
  (forall self',
     add_init_edge registry sp tgt tp self = (Return tt, self') <->
     exists tsig dt,
       in_types (sig self) !! sp = Some dt /\
       node_sig registry self tgt = Some tsig /\
       in_types tsig !! tp = Some dt /\
       self' = mkQFn (name self) (sig self)
                 (mkGraph (nodes (G self))
                    (edges (G self) ++
                      [mkEdge "init" tgt (new_edge_key "init" tgt (G self))
                         sp tp dt]))) /\
  (forall msg self',
     add_init_edge registry sp tgt tp self = (Raise (ValueError msg), self') <->
     exists tsig s t,
       in_types (sig self) !! sp = Some s /\
       node_sig registry self tgt = Some tsig /\
       in_types tsig !! tp = Some t /\
       s <> t /\ msg = "Type mismatch: " +:+ s +:+ " != " +:+ t /\
       self' = self).
Proof.
  intros Hi. split.
  - intros self'. split.
    + intros E. apply add_init_edge_Return in E as (tsig & dt & Hs & Ht & Hp & ->).
      exists tsig, dt. repeat split; try done.
      rewrite nx_add_edge_present; [done|done|by eapply node_sig_present].
    + intros (tsig & dt & Hs & Ht & Hp & ->).
      rewrite (add_init_edge_resolved registry sp tgt tp self dt tsig) by done.
      rewrite Hp, decide_True by done.
      rewrite nx_add_edge_present; [done|done|by eapply node_sig_present].
  - intros msg self'. split.
    + intros E. unfold_M. step_M.
      eexists _, _, _. unfold node_sig. rewrite E1. simpl. rewrite E2. simpl.
      repeat split; done.
    + intros (tsig & s & t & Hs & Ht & Hp & Hne & -> & ->).
      rewrite (add_init_edge_resolved registry sp tgt tp self s tsig) by done.
      by rewrite Hp, decide_False.
Qed.

Lemma add_init_edge_outcomes_witness :
  (forall self',
     add_init_edge fn_types "q0" "H" "q" bell_nodes = (Return tt, self') <->
     exists tsig dt,
       in_types (sig bell_nodes) !! "q0" = Some dt /\
       node_sig fn_types bell_nodes "H" = Some tsig /\
       in_types tsig !! "q" = Some dt /\
       self' = mkQFn (name bell_nodes) (sig bell_nodes)
                 (mkGraph (nodes (G bell_nodes))
                    (edges (G bell_nodes) ++
                      [mkEdge "init" "H" (new_edge_key "init" "H" (G bell_nodes))
                         "q0" "q" dt]))) /\
  (forall msg self',
     add_init_edge fn_types "q0" "H" "q" bell_nodes
       = (Raise (ValueError msg), self') <->
     exists tsig s t,
       in_types (sig bell_nodes) !! "q0" = Some s /\
       node_sig fn_types bell_nodes "H" = Some tsig /\
       in_types tsig !! "q" = Some t /\
       s <> t /\ msg = "Type mismatch: " +:+ s +:+ " != " +:+ t /\
       self' = bell_nodes).
Proof.
  apply (add_init_edge_outcomes fn_types "q0" "H" "q" bell_nodes).
  eexists. vm_compute. reflexivity.
Defined.

(** X2. [add_final_edge] on an object that has its end node.  The call
    returns exactly when the circuit declares output port [tp], the source
    is a node tagged with an operation of the table, that operation declares
    output port [sp], and the two declared types are the same; the object
    returned differs only by one appended edge, into fin, carrying that
    type.  It raises a [ValueError] exactly when both types resolve and
    differ, and the message names the operation's type first. *)
Theorem add_final_edge_outcomes registry src sp tp self :
  is_Some (nodes (G self) !! "fin") ->
  (forall self',
     add_final_edge registry src sp tp self = (Return tt, self') <->
     exists ssig dt,
       out_types (sig self) !! tp = Some dt /\
       node_sig registry self src = Some ssig /\
       out_types ssig !! sp = Some dt /\
       self' = mkQFn (name self) (sig self)
                 (mkGraph (nodes (G self))
                    (edges (G self) ++
                      [mkEdge src "fin" (new_edge_key src "fin" (G self))
                         sp tp dt]))) /\
  (forall msg self',
     add_final_edge registry src sp tp self = (Raise (ValueError msg), self') <->
     exists ssig s t,
       out_types (sig self) !! tp = Some t /\
       node_sig registry self src = Some ssig /\
       out_types ssig !! sp = Some s /\
       s <> t /\ msg = "Type mismatch: " +:+ s +:+ " != " +:+ t /\
       self' = self).
Proof.
  intros Hf. split.
  - intros self'. split.
    + intros E. apply add_final_edge_Return in E as (ssig & dt & Ht & Hs & Hp & ->).
      exists ssig, dt. repeat split; try done.
      rewrite nx_add_edge_present; [done|by eapply node_sig_present|done].
    + intros (ssig & dt & Ht & Hs & Hp & ->).
      rewrite (add_final_edge_resolved registry src sp tp self dt ssig) by done.
      rewrite Hp, decide_True by done.
      rewrite nx_add_edge_present; [done|by eapply node_sig_present|done].
  - intros msg self'. split.
    + intros E. unfold_M. step_M.
      eexists _, _, _. unfold node_sig. rewrite E1. simpl. rewrite E2. simpl.
      repeat split; done.
    + intros (ssig & s & t & Ht & Hs & Hp & Hne & -> & ->).
      rewrite (add_final_edge_resolved registry src sp tp self t ssig) by done.
      by rewrite Hp, decide_False.
Qed.

Lemma add_final_edge_outcomes_witness :
  (forall self',
     add_final_edge fn_types "CX" "ctl" "q0" bell_nodes = (Return tt, self') <->
     exists ssig dt,
       out_types (sig bell_nodes) !! "q0" = Some dt /\
       node_sig fn_types bell_nodes "CX" = Some ssig /\
       out_types ssig !! "ctl" = Some dt /\
       self' = mkQFn (name bell_nodes) (sig bell_nodes)
                 (mkGraph (nodes (G bell_nodes))
                    (edges (G bell_nodes) ++
                      [mkEdge "CX" "fin" (new_edge_key "CX" "fin" (G bell_nodes))
                         "ctl" "q0" dt]))) /\
  (forall msg self',
     add_final_edge fn_types "CX" "ctl" "q0" bell_nodes
       = (Raise (ValueError msg), self') <->
     exists ssig s t,
       out_types (sig bell_nodes) !! "q0" = Some t /\
       node_sig fn_types bell_nodes "CX" = Some ssig /\
       out_types ssig !! "ctl" = Some s /\
       s <> t /\ msg = "Type mismatch: " +:+ s +:+ " != " +:+ t /\
       self' = bell_nodes).
Proof.
  apply (add_final_edge_outcomes fn_types "CX" "ctl" "q0" bell_nodes).
  eexists. vm_compute. reflexivity.
Defined.

(** X3. A node name that is not in the graph.  Whichever edge method has to
    look the name up raises [KeyError] on that name and leaves the object
    alone: [add_edge] for its source, [add_edge] for its target once the
    source has resolved to an operation identifier, [add_init_edge] once the
    circuit input port is found, [add_final_edge] once the circuit output
    port is found. *)
Theorem unknown_node_KeyError registry self n :
  nodes (G self) !! n = None ->
  (forall sp tgt tp,
     n <> "init" -> tgt <> "fin" ->
     add_edge registry n sp tgt tp self = (Raise (KeyError n), self)) /\
  (forall src sp tp attr fnid,
     src <> "init" -> n <> "fin" ->
     nodes (G self) !! src = Some attr -> attr !! "fnid" = Some fnid ->
     add_edge registry src sp n tp self = (Raise (KeyError n), self)) /\
  (forall sp tp,
     is_Some (in_types (sig self) !! sp) ->
     add_init_edge registry sp n tp self = (Raise (KeyError n), self)) /\
  (forall sp tp,
     is_Some (out_types (sig self) !! tp) ->
     add_final_edge registry n sp tp self = (Raise (KeyError n), self)).
Proof.
  intros Hn. repeat split.
  - intros sp tgt tp Hni Htf. unfold_M. rewrite !decide_False by done.
    by rewrite Hn.
  - intros src sp tp attr fnid Hsi Hnf Hs Hf. unfold_M.
    rewrite !decide_False by done. by rewrite Hs, Hf, Hn.
  - intros sp tp [dt Hdt]. unfold_M. by rewrite Hdt, Hn.
  - intros sp tp [dt Hdt]. unfold_M. by rewrite Hdt, Hn.
Qed.

Lemma unknown_node_KeyError_witness :
  (forall sp tgt tp,
     "T" <> "init" -> tgt <> "fin" ->
     add_edge fn_types "T" sp tgt tp bell_nodes = (Raise (KeyError "T"), bell_nodes)) /\
  (forall src sp tp attr fnid,
     src <> "init" -> "T" <> "fin" ->
     nodes (G bell_nodes) !! src = Some attr -> attr !! "fnid" = Some fnid ->
     add_edge fn_types src sp "T" tp bell_nodes = (Raise (KeyError "T"), bell_nodes)) /\
  (forall sp tp,
     is_Some (in_types (sig bell_nodes) !! sp) ->
     add_init_edge fn_types sp "T" tp bell_nodes = (Raise (KeyError "T"), bell_nodes)) /\
  (forall sp tp,
     is_Some (out_types (sig bell_nodes) !! tp) ->
     add_final_edge fn_types "T" sp tp bell_nodes = (Raise (KeyError "T"), bell_nodes)).
Proof.
  apply (unknown_node_KeyError fn_types bell_nodes "T").
  vm_compute. reflexivity.
Defined.

Lemma QFn_init_nodes nm sg :
  nodes (G (QFn_init nm sg)) =
  <["fin" := {["label" := ""]}]> {["init" := {["label" := ""]}]}.
Proof. by rewrite QFn_init_G. Qed.

(** In a node table without operation identifiers no name resolves. *)
Lemma untagged_table_node_sig registry self :
  (forall n attr, nodes (G self) !! n = Some attr -> attr !! "fnid" = None) ->
  forall n, node_sig registry self n = None.
Proof.
  intros Hall n. unfold node_sig.
  destruct (nodes (G self) !! n) as [attr|] eqn:En; [|done].
  apply Hall in En. cbn [mbind option_bind]. by rewrite En.
Qed.

Lemma QFn_init_untagged nm sg n attr :
  nodes (G (QFn_init nm sg)) !! n = Some attr -> attr !! "fnid" = None.
Proof.
  rewrite QFn_init_nodes. intros H.
  apply lookup_insert_Some in H as [[_ <-]|[_ H]].
  - by apply lookup_singleton_ne.
  - apply lookup_singleton_Some in H as [_ <-]. by apply lookup_singleton_ne.
Qed.

(** X4. Edges need operation nodes.  On a freshly constructed object, which
    holds only the start and the end node, every edge insertion raises,
    whatever its arguments, the circuit signature and the table, and the
    object stays fresh: in particular the start node cannot be wired
    straight to the end node. *)
Theorem fresh_object_rejects_edges registry nm sg c :
  is_edge_call c = true ->
  exists e, run_call registry c (QFn_init nm sg) = (Raise e, QFn_init nm sg).
Proof.
  intros Hc.
  pose proof (untagged_table_node_sig registry (QFn_init nm sg)
                (QFn_init_untagged nm sg)) as Hnone.
  generalize dependent (QFn_init nm sg). intros self Hnone.
  destruct (run_call registry c self) as [[[]|e] self'] eqn:E.
  - exfalso. destruct c; try done; simpl in E.
    + apply add_edge_Return in E as (_ & _ & ? & ? & ? & Hn & _).
      by rewrite Hnone in Hn.
    + apply add_init_edge_Return in E as (? & ? & _ & Hn & _).
      by rewrite Hnone in Hn.
    + apply add_final_edge_Return in E as (? & ? & _ & Hn & _).
      by rewrite Hnone in Hn.
  - apply run_call_Raise in E as ->. eauto.
Qed.

Lemma fresh_object_rejects_edges_witness :
  exists e,
    run_call fn_types (AddInitEdge "q0" "fin" "q0") (QFn_init "bell" bell_sig)
    = (Raise e, QFn_init "bell" bell_sig).
Proof.
  exact (fresh_object_rejects_edges fn_types "bell" bell_sig
           (AddInitEdge "q0" "fin" "q0") eq_refl).
Defined.

(** ** Invariants of the reachable objects *)

Section Invariants.

Variable registry : gmap string Sig.

Lemma nx_add_node_edges n attr g : edges (nx_add_node n attr g) = edges g.
Proof. unfold nx_add_node. by destruct (nodes g !! n). Qed.

(** An edge call that returns, seen from outside: one edge, described by
    [edge_step], is appended and nothing else changes. *)
Lemma edge_call_Return c self self' :
  is_Some (nodes (G self) !! "init") ->
  is_Some (nodes (G self) !! "fin") ->
  is_edge_call c = true ->
  run_call registry c self = (Return tt, self') ->
  exists dt,
    let e0 := call_edge c 0 dt in
    let e := call_edge c (new_edge_key (e_src e0) (e_tgt e0) (G self)) dt in
    edge_step registry self e /\
    self' = mkQFn (name self) (sig self)
              (mkGraph (nodes (G self)) (edges (G self) ++ [e])).
Proof.
  intros Hi Hf Hc E. destruct c; try done; cbn [run_call] in E.
  - apply add_edge_Return in E
      as (Hsi & Htf & ssig & tsig & dt & Hs & Ht & Hso & Hti & ->).
    exists dt. cbn. split; [|done].
    split; [by eapply node_sig_present|]. split; [by eapply node_sig_present|].
    split; [done|]. left. eauto 10.
  - apply add_init_edge_Return in E as (tsig & dt & Hso & Ht & Hti & ->).
    exists dt. cbn.
    rewrite nx_add_edge_present; [|done|by eapply node_sig_present].
    split; [|done].
    split; [done|]. split; [by eapply node_sig_present|].
    split; [done|]. right; left. eauto 10.
  - apply add_final_edge_Return in E as (ssig & dt & Hto & Hs & Hso & ->).
    exists dt. cbn.
    rewrite nx_add_edge_present; [|by eapply node_sig_present|done].
    split; [|done].
    split; [by eapply node_sig_present|]. split; [done|].
    split; [done|]. right; right. eauto 10.
Qed.

(** Induction over the reachable objects, by what a call can do. *)
Lemma reachable_invariant (P : QFn -> Prop) :
  (forall nm sg, P (QFn_init nm sg)) ->
  (forall self n fnid label,
     reachable registry self -> P self ->
     P (mkQFn (name self) (sig self)
          (nx_add_node n (node_attr fnid label) (G self)))) ->
  (forall self e,
     reachable registry self -> P self -> edge_step registry self e ->
     P (mkQFn (name self) (sig self)
          (mkGraph (nodes (G self)) (edges (G self) ++ [e])))) ->
  forall self, reachable registry self -> P self.
Proof.
  intros Hinit Hnode Hedge. induction 1 as [nm sg|c self r self' Hr IH E].
  - apply Hinit.
  - destruct r as [[]|e]; [|apply run_call_Raise in E; by subst].
    destruct (reachable_boundary registry self Hr) as [Hi Hf].
    destruct (is_edge_call c) eqn:Hc.
    + apply edge_call_Return in E as (dt & Hstep & ->); try done.
      by apply Hedge.
    + destruct c; try done.
      * cbn [run_call] in E. rewrite add_node_eq in E. simplify_eq.
        by apply Hnode.
      * apply run_SaveImage_state in E. by subst.
Qed.

Lemma reachable_fresh_invariant (P : QFn -> Prop) :
  (forall nm sg, P (QFn_init nm sg)) ->
  (forall self n fnid label,
     reachable_fresh registry self -> P self ->
     nodes (G self) !! n = None ->
     P (mkQFn (name self) (sig self)
          (nx_add_node n (node_attr fnid label) (G self)))) ->
  (forall self e,
     reachable_fresh registry self -> P self -> edge_step registry self e ->
     P (mkQFn (name self) (sig self)
          (mkGraph (nodes (G self)) (edges (G self) ++ [e])))) ->
  forall self, reachable_fresh registry self -> P self.
Proof.
  intros Hinit Hnode Hedge.
  induction 1 as [nm sg|c self r self' Hr IH Hfresh E].
  - apply Hinit.
  - destruct r as [[]|e]; [|apply run_call_Raise in E; by subst].
    destruct (reachable_boundary registry self
                (reachable_fresh_reachable registry self Hr)) as [Hi Hf].
    destruct (is_edge_call c) eqn:Hc.
    + apply edge_call_Return in E as (dt & Hstep & ->); try done.
      by apply Hedge.
    + destruct c; try done.
      * cbn [run_call] in E. rewrite add_node_eq in E. simplify_eq.
        apply Hnode; try done. by eapply Hfresh.
      * apply run_SaveImage_state in E. by subst.
Qed.

Lemma node_sig_registry self n s :
  node_sig registry self n = Some s ->
  exists attr fnid,
    nodes (G self) !! n = Some attr /\ attr !! "fnid" = Some fnid /\
    registry !! fnid = Some s.
Proof.
  unfold node_sig. intros H.
  destruct (nodes (G self) !! n) as [attr|]; [|done]. cbn in H.
  destruct (attr !! "fnid") as [fnid|] eqn:Ef; [|done]. cbn in H. eauto.
Qed.

End Invariants.

Section InvariantFacts.

Variable registry : gmap string Sig.


Lemma node_attr_well_attributed n fnid label :
  well_attributed n (node_attr fnid label).
Proof.
  unfold node_attr. split; [|split].
  - rewrite lookup_insert_eq. eauto.
  - intros _ _. rewrite lookup_insert_ne by done.
    rewrite lookup_singleton_eq. eauto.
  - intros k [v Hk]. apply lookup_insert_Some in Hk as [[<- _]|[_ Hk]].
    + by right.
    + apply lookup_singleton_Some in Hk as [<- _]. by left.
Qed.

Lemma reachable_attributes self :
  reachable registry self ->
  forall n attr, nodes (G self) !! n = Some attr -> well_attributed n attr.
Proof.
  revert self.
  apply (reachable_invariant registry
           (fun self => forall n attr, nodes (G self) !! n = Some attr ->
                                       well_attributed n attr)).
  - intros nm sg n attr. rewrite QFn_init_nodes. intros H.
    assert ((n = "fin" \/ n = "init") /\ attr = {["label" := ""]}) as [Hn ->].
    { apply lookup_insert_Some in H as [[<- <-]|[_ H]]; [by eauto|].
      apply lookup_singleton_Some in H as [<- <-]. by eauto. }
    split; [|split].
    + rewrite lookup_singleton_eq. eauto.
    + intros Hi Hf. by destruct Hn.
    + intros k [v Hk]. apply lookup_singleton_Some in Hk as [<- _]. by right.
  - intros self n fnid label _ IH m attr. cbn [G]. unfold nx_add_node.
    pose proof (node_attr_well_attributed m fnid label) as (Hl & Hf & Hk).
    destruct (nodes (G self) !! n) as [old|] eqn:En; cbn [nodes];
      intros H; apply lookup_insert_Some in H as [[<- <-]|[_ H]];
      try (by eapply IH); [|by split].
    destruct (IH _ _ En) as (Hl' & Hf' & Hk').
    split; [|split].
    + destruct Hl as [v Hv]. exists v. by apply lookup_union_Some_l.
    + intros Hi Hfin. destruct (Hf Hi Hfin) as [v Hv]. exists v.
      by apply lookup_union_Some_l.
    + intros k [v Hv]. apply lookup_union_Some_raw in Hv as [Hv|[_ Hv]]; eauto.
  - intros self e _ IH _. exact IH.
Qed.

Lemma reachable_registry_types self :
  reachable registry self ->
  Forall (fun e => registry_type registry (datatype e)) (edges (G self)).
Proof.
  revert self.
  apply (reachable_invariant registry
           (fun self => Forall (fun e => registry_type registry (datatype e))
                               (edges (G self)))).
  - intros nm sg. rewrite QFn_init_G. constructor.
  - intros self n fnid label _ IH. cbn [G]. by rewrite nx_add_node_edges.
  - intros self e _ IH (_ & _ & _ & Hcase). cbn [G edges].
    apply Forall_app. split; [exact IH|]. constructor; [|done].
    unfold registry_type.
    destruct Hcase as [(_ & _ & ssig & tsig & Hs & _ & Ho & _)
                      |[(_ & tsig & _ & Ht & Hi)|(_ & ssig & _ & Hs & Ho)]].
    + apply node_sig_registry in Hs as (? & f & _ & _ & Hr). eauto 10.
    + apply node_sig_registry in Ht as (? & f & _ & _ & Hr). eauto 10.
    + apply node_sig_registry in Hs as (? & f & _ & _ & Hr). eauto 10.
Qed.

Lemma reachable_fresh_shape self :
  reachable_fresh registry self -> Forall boundary_shape (edges (G self)).
Proof.
  revert self.
  apply (reachable_fresh_invariant registry
           (fun self => Forall boundary_shape (edges (G self)))).
  - intros nm sg. rewrite QFn_init_G. constructor.
  - intros self n fnid label _ IH _. cbn [G]. by rewrite nx_add_node_edges.
  - intros self e Hr IH (_ & _ & _ & Hcase). cbn [G edges].
    apply Forall_app. split; [exact IH|]. constructor; [|done].
    destruct (reachable_fresh_boundary registry self Hr) as [Hi Hf].
    assert (node_sig registry self "init" = None) as Hni
      by (eapply node_sig_untagged; [exact Hi|by apply lookup_singleton_ne]).
    assert (node_sig registry self "fin" = None) as Hnf
      by (eapply node_sig_untagged; [exact Hf|by apply lookup_singleton_ne]).
    unfold boundary_shape.
    destruct Hcase as [(Hsi & Htf & ssig & tsig & Hs & Ht & _)
                      |[(Hsi & tsig & _ & Ht & _)|(Htf & ssig & _ & Hs & _)]].
    + repeat split; try done; intros Heq; rewrite Heq in *; congruence.
    + repeat split; try (intros Heq; rewrite Heq in *; congruence).
    + repeat split; try (intros Heq; rewrite Heq in *; congruence).
Qed.

End InvariantFacts.

Lemma test_reachable : reachable fn_types test.2.
Proof. apply run_calls_reachable. constructor. Qed.

Lemma test_reachable_fresh : reachable_fresh fn_types test.2.
Proof.
  apply run_calls_reachable_fresh; [constructor|vm_compute; reflexivity].
Qed.



(** X6. Shape of the boundary.  As long as no node is added under a name
    already present, no stored edge leaves the end node, none enters the
    start node, and none runs from the start node straight to the end node:
    every edge has an operation node at one end at least. *)
Theorem boundary_edges_shape registry self :
  reachable_fresh registry self ->
  forall e, e ∈ edges (G self) ->
    e_src e <> "fin" /\ e_tgt e <> "init" /\
    (e_src e = "init" -> e_tgt e <> "fin").
Proof.
  intros Hr e He.
  pose proof (reachable_fresh_shape registry self Hr) as Hall.
  rewrite Forall_forall in Hall. by apply Hall.
Qed.

Lemma boundary_edges_shape_witness :
  "init" <> "fin" /\ "H" <> "init" /\ ("init" = "init" -> "H" <> "fin").
Proof.
  apply (boundary_edges_shape fn_types test.2 test_reachable_fresh
           (mkEdge "init" "H" 0 "q0" "q" "Qubit")).
  apply list_elem_of_In. vm_compute. left; reflexivity.
Defined.

(** X7. Node attributes.  In every reachable object each node carries a
    label; each node other than init and fin carries an operation
    identifier; and no node carries any attribute besides these two. *)
Theorem node_attributes registry self :
  reachable registry self ->
  forall n attr, nodes (G self) !! n = Some attr ->
    is_Some (attr !! "label") /\
    (n <> "init" -> n <> "fin" -> is_Some (attr !! "fnid")) /\
    (forall k, is_Some (attr !! k) -> k = "fnid" \/ k = "label").
Proof. intros Hr n attr Hn. by eapply reachable_attributes. Qed.

Lemma node_attributes_witness :
  is_Some (node_attr "H_gate" "H" !! "label") /\
  ("H" <> "init" -> "H" <> "fin" -> is_Some (node_attr "H_gate" "H" !! "fnid")) /\
  (forall k, is_Some (node_attr "H_gate" "H" !! k) -> k = "fnid" \/ k = "label").
Proof.
  apply (node_attributes fn_types test.2 test_reachable "H"
           (node_attr "H_gate" "H")).
  vm_compute. reflexivity.
Defined.

(** X8. Where edge types come from.  In every reachable object the data
    type recorded on an edge is one that an operation of the table declares
    on one of its ports; this holds for the boundary edges too, since the
    circuit's own type has been compared with the operation's. *)
Theorem edge_types_from_registry registry self :
  reachable registry self ->
  forall e, e ∈ edges (G self) ->
    exists fnid s p,
      registry !! fnid = Some s /\
      (in_types s !! p = Some (datatype e) \/
       out_types s !! p = Some (datatype e)).
Proof.
  intros Hr e He.
  pose proof (reachable_registry_types registry self Hr) as Hall.
  rewrite Forall_forall in Hall. by apply Hall.
Qed.

Lemma edge_types_from_registry_witness :
  exists fnid s p,
    fn_types !! fnid = Some s /\
    (in_types s !! p = Some "Qubit" \/ out_types s !! p = Some "Qubit").
Proof.
  apply (edge_types_from_registry fn_types test.2 test_reachable
           (mkEdge "H" "CX" 0 "q" "ctl" "Qubit")).
  apply list_elem_of_In. vm_compute. right; left; reflexivity.
Defined.

Lemma fn_types_Qubit dt : registry_type fn_types dt -> dt = "Qubit".
Proof.
  intros (fnid & s & p & Hreg & Hp). unfold fn_types in Hreg.
  apply lookup_insert_Some in Hreg as [[_ <-]|[_ Hreg]].
  - unfold CX_gate_sig in Hp. cbn [in_types out_types] in Hp.
    destruct Hp as [Hp|Hp];
      apply lookup_insert_Some in Hp as [[_ <-]|[_ Hp]]; try done;
      by apply lookup_singleton_Some in Hp as [_ <-].
  - apply lookup_singleton_Some in Hreg as [_ <-].
    unfold H_gate_sig in Hp. cbn [in_types out_types] in Hp.
    destruct Hp as [Hp|Hp]; by apply lookup_singleton_Some in Hp as [_ <-].
Qed.

(** X9. With the module's own table [fn_types], every edge of every
    reachable object carries Qubit, whatever circuit signature the caller
    supplied and whatever calls were made; so the recorded types stay inside
    the set [edge_types], which the methods themselves never consult. *)
Theorem fn_types_edges_Qubit self :
  reachable fn_types self ->
  forall e, e ∈ edges (G self) ->
    datatype e = "Qubit" /\ datatype e ∈ edge_types.
Proof.
  intros Hr e He.
  pose proof (reachable_registry_types fn_types self Hr) as Hall.
  rewrite Forall_forall in Hall. apply Hall, fn_types_Qubit in He as ->.
  split; [done|]. unfold edge_types.
  apply elem_of_union_r, elem_of_singleton. done.
Qed.

Lemma fn_types_edges_Qubit_witness :
  datatype (mkEdge "CX" "fin" 1 "tgt" "q1" "Qubit") = "Qubit" /\
  datatype (mkEdge "CX" "fin" 1 "tgt" "q1" "Qubit") ∈ edge_types.
Proof.
  apply (fn_types_edges_Qubit test.2 test_reachable
           (mkEdge "CX" "fin" 1 "tgt" "q1" "Qubit")).
  apply list_elem_of_In. vm_compute. do 4 right; left; reflexivity.
Defined.

(** ** Export and node insertion *)






(** X11. [add_node] and the node count.  The call returns on every object;
    the node count grows by one when the name is new and stays the same when
    the name is taken; the set of names gains exactly the given name; the
    edges, the object's name and its signature are left as they were. *)
Theorem add_node_counts n fnid label self :
  exists self',
    add_node n fnid label self = (Return tt, self') /\
    node_count self' =
      (if decide (is_Some (nodes (G self) !! n))
       then node_count self else S (node_count self)) /\
    dom (nodes (G self')) = {[n]} ∪ dom (nodes (G self)) /\
    edges (G self') = edges (G self) /\
    name self' = name self /\ sig self' = sig self.
Proof.
  eexists. split; [apply add_node_eq|]. cbn [G name sig].
  rewrite nx_add_node_edges. unfold node_count. cbn [G]. unfold nx_add_node.
  destruct (nodes (G self) !! n) as [old|] eqn:En; cbn [nodes].
  - rewrite decide_True by eauto.
    rewrite map_size_insert_Some by eauto. by rewrite dom_insert_L.
  - rewrite decide_False by (by intros [? ?]).
    rewrite map_size_insert_None by done. by rewrite dom_insert_L.
Qed.

Lemma node_attr_union_absorb f1 l1 f2 l2 (old : gmap string string) :
  node_attr f2 l2 ∪ (node_attr f1 l1 ∪ old) = node_attr f2 l2 ∪ old.
Proof.
  apply map_eq. intros k. rewrite !lookup_union. unfold node_attr.
  destruct (decide (k = "label")) as [->|Hl].
  { rewrite !lookup_insert_eq. by destruct (old !! "label"). }
  rewrite !lookup_insert_ne by done.
  destruct (decide (k = "fnid")) as [->|Hf].
  { rewrite !lookup_singleton_eq. by destruct (old !! "fnid"). }
  rewrite !lookup_singleton_ne by done. by destruct (old !! k).
Qed.

Lemma node_attr_union_same f1 l1 f2 l2 :
  node_attr f2 l2 ∪ node_attr f1 l1 = node_attr f2 l2.
Proof.
  pose proof (node_attr_union_absorb f1 l1 f2 l2 ∅) as H.
  by rewrite !(right_id_L ∅ (∪)) in H.
Qed.

(** X12. The last [add_node] wins.  Adding a node under the same name twice
    leaves exactly the object that the second call alone would have left:
    the first identifier and label are gone without a trace, and repeating a
    call changes nothing. *)
Theorem add_node_last_wins n f1 l1 f2 l2 self :
  (add_node n f2 l2 (add_node n f1 l1 self).2).2 = (add_node n f2 l2 self).2.
Proof.
  rewrite !add_node_eq. cbn [snd name sig G]. f_equal.
  unfold nx_add_node.
  destruct (nodes (G self) !! n) as [old|] eqn:En; cbn [nodes edges].
  - rewrite lookup_insert_eq. cbn [nodes edges].
    by rewrite insert_insert_eq, node_attr_union_absorb.
  - rewrite lookup_insert_eq. cbn [nodes edges].
    by rewrite insert_insert_eq, node_attr_union_same.
Qed.

(** ** Edges do not get in each other's way *)

Lemma new_edge_key_snoc u v ns g k sp tp dt :
  new_edge_key u v (mkGraph ns (edges g ++ [mkEdge u v k sp tp dt])) =
  S (new_edge_key u v g).
Proof.
  unfold new_edge_key. cbn [edges]. rewrite filter_app, length_app.
  rewrite filter_cons_True by done. rewrite filter_nil. cbn [length]. lia.
Qed.

(** X13. An edge insertion that returned can be repeated.  On a reachable
    object, the same call made again on the object it returned returns
    again, and stores a parallel edge: same endpoints, ports and type, next
    key.  No method checks whether a port is already wired. *)
Theorem edge_insertion_repeats registry self c self' :
  reachable registry self ->
  is_edge_call c = true ->
  run_call registry c self = (Return tt, self') ->
  exists e,
    edges (G self') = edges (G self) ++ [e] /\
    run_call registry c self' =
      (Return tt,
       mkQFn (name self') (sig self')
         (mkGraph (nodes (G self')) (edges (G self') ++ [next_parallel e]))).
Proof.
  intros Hr Hc E. destruct (reachable_boundary registry self Hr) as [Hi Hf].
  destruct c; try done; cbn [run_call] in *.
  - apply add_edge_Return in E
      as (Hsi & Htf & ssig & tsig & dt & Hs & Ht & Hso & Hti & ->).
    eexists. split; [reflexivity|].
    rewrite (add_edge_resolved registry src sp tgt tp _ ssig tsig)
      by done.
    rewrite Hso, Hti, decide_True by done.
    rewrite nx_add_edge_present by (cbn [G nodes]; by eapply node_sig_present).
    cbn [G nodes edges name sig]. unfold next_parallel.
    cbn [e_src e_tgt e_key src_port tgt_port datatype].
    by rewrite new_edge_key_snoc.
  - apply add_init_edge_Return in E as (tsig & dt & Hso & Ht & Hti & ->).
    rewrite nx_add_edge_present; [|done|by eapply node_sig_present].
    eexists. split; [reflexivity|].
    rewrite (add_init_edge_resolved registry sp tgt tp _ dt tsig) by done.
    rewrite Hti, decide_True by done.
    rewrite nx_add_edge_present
      by (cbn [G nodes]; first [done|by eapply node_sig_present]).
    cbn [G nodes edges name sig]. unfold next_parallel.
    cbn [e_src e_tgt e_key src_port tgt_port datatype].
    by rewrite new_edge_key_snoc.
  - apply add_final_edge_Return in E as (ssig & dt & Hto & Hs & Hso & ->).
    rewrite nx_add_edge_present; [|by eapply node_sig_present|done].
    eexists. split; [reflexivity|].
    rewrite (add_final_edge_resolved registry src sp tp _ dt ssig) by done.
    rewrite Hso, decide_True by done.
    rewrite nx_add_edge_present
      by (cbn [G nodes]; first [done|by eapply node_sig_present]).
    cbn [G nodes edges name sig]. unfold next_parallel.
    cbn [e_src e_tgt e_key src_port tgt_port datatype].
    by rewrite new_edge_key_snoc.
Qed.

Lemma edge_insertion_repeats_witness :
  exists e,
    edges (G (run_call fn_types (AddInitEdge "q0" "H" "q") bell_nodes).2)
      = edges (G bell_nodes) ++ [e] /\
    run_call fn_types (AddInitEdge "q0" "H" "q")
      (run_call fn_types (AddInitEdge "q0" "H" "q") bell_nodes).2 =
      (Return tt,
       mkQFn (name (run_call fn_types (AddInitEdge "q0" "H" "q") bell_nodes).2)
         (sig (run_call fn_types (AddInitEdge "q0" "H" "q") bell_nodes).2)
         (mkGraph
            (nodes (G (run_call fn_types (AddInitEdge "q0" "H" "q") bell_nodes).2))
            (edges (G (run_call fn_types (AddInitEdge "q0" "H" "q") bell_nodes).2)
               ++ [next_parallel e]))).
Proof.
  apply (edge_insertion_repeats fn_types bell_nodes (AddInitEdge "q0" "H" "q")).
  - apply bell_nodes_reachable.
  - reflexivity.
  - vm_compute. reflexivity.
Defined.

(** X14. What validation reads.  Whether an edge call returns or raises,
    and which exception it raises, is decided by the circuit signature and
    by the entries of the node table under the names the call mentions: two
    objects that agree on these give the same outcome, whatever edges they
    hold and whatever other nodes they have. *)
Theorem edge_call_outcome_frame registry c s1 s2 :
  is_edge_call c = true ->
  sig s1 = sig s2 ->
  (forall n, n ∈ call_nodes c -> nodes (G s1) !! n = nodes (G s2) !! n) ->
  (run_call registry c s1).1 = (run_call registry c s2).1.
Proof.
  intros Hc Hsig Hnodes. destruct c; try done; cbn [run_call call_nodes] in *.
  - assert (nodes (G s1) !! src = nodes (G s2) !! src) as Hs
      by (apply Hnodes; apply list_elem_of_here).
    assert (nodes (G s1) !! tgt = nodes (G s2) !! tgt) as Ht
      by (apply Hnodes; apply list_elem_of_further, list_elem_of_here).
    unfold add_edge. do 2 (case_decide; [done|]).
    unfold getitem, raise, get_G, set_G, mbind, M_bind, mret, M_ret.
    cbn beta. rewrite Hs, Ht. clear Hnodes Hs Ht. by step_M.
  - assert (nodes (G s1) !! tgt = nodes (G s2) !! tgt) as Ht
      by (apply Hnodes; apply list_elem_of_here).
    unfold add_init_edge, getitem, raise, get_G, get_sig, set_G,
      mbind, M_bind, mret, M_ret.
    cbv beta. rewrite Hsig.
    destruct (in_types (sig s2) !! sp) as [dt|]; [|done].
    cbv beta iota zeta. rewrite Ht. clear Hnodes Ht. by step_M.
  - assert (nodes (G s1) !! src = nodes (G s2) !! src) as Hs
      by (apply Hnodes; apply list_elem_of_here).
    unfold add_final_edge, getitem, raise, get_G, get_sig, set_G,
      mbind, M_bind, mret, M_ret.
    cbv beta. rewrite Hsig.
    destruct (out_types (sig s2) !! tp) as [dt|]; [|done].
    cbv beta iota zeta. rewrite Hs. clear Hnodes Hs. by step_M.
Qed.

Lemma edge_call_outcome_frame_witness :
  (run_call fn_types (AddEdge "H" "q" "CX" "ctl") bell_nodes).1 =
  (run_call fn_types (AddEdge "H" "q" "CX" "ctl") test.2).1.
Proof.
  apply (edge_call_outcome_frame fn_types (AddEdge "H" "q" "CX" "ctl")
           bell_nodes test.2).
  - reflexivity.
  - vm_compute. reflexivity.
  - intros n Hn. apply list_elem_of_In in Hn.
    destruct Hn as [<-|[<-|[]]]; vm_compute; reflexivity.
Defined.
